(** * go-store: a shallow embedding of the storage backends

    The development follows the layout of the Go package [store]:
    the metadata codec ([meta2Bytes], [bytes2Meta]), the [Local],
    [WebDav], [S3] and [Empty] backends.  Go byte slices are [list byte],
    Go strings are [string] (the conversions [string(b)] and [[]byte(s)]
    are [string_of_list_byte] and [list_byte_of_string]), Go maps are
    [gmap]s, a [nil] slice or map is [None], and [int64] values are
    integers in [Z] with the wrap-around written out. *)

From Stdlib Require Import ZArith Strings.Byte Strings.Ascii Strings.String Lia.
From stdpp Require Import gmap strings list fin_maps.

Local Open Scope Z_scope.

#[global] Instance byte_eq_dec : EqDecision byte := Byte.byte_eq_dec.

(** ** Go values *)

(** The error values that the package and the modelled platforms produce. *)
Inductive error : Type :=
  | ErrFileNotFound                (* store.ErrFileNotFound *)
  | ErrIsNotDir                    (* store.ErrIsNotDir *)
  | EOF                            (* io.EOF *)
  | ErrNotExist                    (* fs.ErrNotExist, os.IsNotExist holds *)
  | ErrNegativeOffset              (* os: "negative offset" *)
  | AwsErr (code : string)         (* awserr.Error with the given code *)
  | ErrOther (msg : string).       (* any other failure *)

#[global] Instance error_eq_dec : EqDecision error.
Proof. solve_decision. Defined.

(** A Go call either returns or panics. *)
Inductive outcome (A : Type) : Type :=
  | Return (a : A)
  | Panic (msg : string).
Arguments Return {A} a.
Arguments Panic {A} msg.

(** [int64] arithmetic wraps around. *)
Definition wrap64 (z : Z) : Z := (z + 2 ^ 63) mod 2 ^ 64 - 2 ^ 63.

Definition len {A} (l : list A) : Z := Z.of_nat (length l).

(** [b[:n]] and [b[n:]] with the index counted down along the slice, so that
    large bounds cost nothing to evaluate. *)
Fixpoint takeZ {A} (n : Z) (l : list A) : list A :=
  match l with
  | [] => []
  | x :: l' => if 0 <? n then x :: takeZ (n - 1) l' else []
  end.

Fixpoint dropZ {A} (n : Z) (l : list A) : list A :=
  match l with
  | [] => []
  | x :: l' => if 0 <? n then dropZ (n - 1) l' else l
  end.

(** ** The metadata codec (store.go) *)

Definition NL : byte := x0a.   (* '\n' *)
Definition EQ : byte := x3d.   (* '=' *)
Definition META_PREFIX : string := ".meta".

(** [bytes.Split(b, []byte{sep})]: the pieces between the separators; a slice
    without a separator is returned whole, as the only piece. *)
Fixpoint bytesSplit (sep : byte) (b : list byte) : list (list byte) :=
  match b with
  | [] => [[]]
  | c :: b' =>
      if decide (c = sep) then [] :: bytesSplit sep b'
      else match bytesSplit sep b' with
           | [] => [[c]]
           | w :: ws => (c :: w) :: ws
           end
  end.

(** The order in which [range] visits a map is not specified by Go.  The
    class fixes one enumeration of the entries of each map; everything below
    holds for every such enumeration. *)
Class RangeOrder := {
  rangeOrder : gmap string string → list (string * string);
  rangeOrder_perm : ∀ m, rangeOrder m ≡ₚ map_to_list m
}.

(** [fmt.Fprintf(b, "%s=%s\n", key, value)] appended to the buffer [b]. *)
Definition fprintfPair (b : list byte) (kv : string * string) : list byte :=
  b ++ list_byte_of_string kv.1 ++ [EQ] ++ list_byte_of_string kv.2 ++ [NL].

Definition meta2Bytes `{RangeOrder} (meta : gmap string string) : list byte :=
  foldl fprintfPair [] (rangeOrder meta).

(** One iteration of the loop of [bytes2Meta]. *)
Definition bytes2MetaLine (meta : gmap string string) (line : list byte)
  : gmap string string :=
  if decide (len line = 0) then meta
  else
    let pair := bytesSplit EQ line in
    if decide (len pair ≠ 2) then meta
    else match pair with
         | [k; v] => <[string_of_list_byte k := string_of_list_byte v]> meta
         | _ => meta
         end.

Definition bytes2Meta (b : list byte) : gmap string string :=
  foldl bytes2MetaLine ∅ (bytesSplit NL b).

(** The keys and values that the line format can carry. *)
Definition cleanString (s : string) : Prop :=
  (EQ ∉ list_byte_of_string s) ∧ (NL ∉ list_byte_of_string s).

Definition cleanMeta (m : gmap string string) : Prop :=
  map_Forall (λ k v, cleanString k ∧ cleanString v) m.

#[global] Instance cleanString_dec s : Decision (cleanString s).
Proof. unfold cleanString. apply _. Defined.

#[global] Instance cleanMeta_dec m : Decision (cleanMeta m).
Proof. unfold cleanMeta. apply _. Defined.

(** [for k, v := range meta { current[k] = v }] *)
Definition mergeMeta `{RangeOrder} (current : gmap string string)
    (meta : option (gmap string string)) : gmap string string :=
  match meta with
  | None => current
  | Some m => foldl (λ cur kv, <[kv.1 := kv.2]> cur) current (rangeOrder m)
  end.

(** One enumeration, for running the code: the order of [map_to_list]. *)
Definition listOrder : RangeOrder :=
  {| rangeOrder := map_to_list; rangeOrder_perm := (λ m, reflexivity _) |}.


(** ** The platform underneath: files by name

    The [os] package and the WebDAV server are modelled alike, as a finite
    map from names to the bytes of regular files.  A call on a name that is
    not in the map fails with [ErrNotExist]; no other failure (permissions,
    a full disk, a lost connection) is modelled, but every error branch of
    the package is kept. *)

Inductive res (A : Type) : Type :=
  | OK (a : A)
  | Fail (e : error).
Arguments OK {A} a.
Arguments Fail {A} e.

(** A Go result pair [(value, err)]. *)
Definition goPair {A} (r : res A) : option A * option error :=
  match r with
  | OK a => (Some a, None)
  | Fail e => (None, Some e)
  end.

Record FileInfo : Type := mkFileInfo {
  fi_name : string;
  fi_size : Z;
  fi_isdir : bool
}.

(** An open file: its name and the position of the next read or write. *)
Record File : Type := mkFile {
  f_name : string;
  f_off : Z
}.

Abbreviation FS := (gmap string (list byte)).

Definition os_IsNotExist (e : error) : bool := bool_decide (e = ErrNotExist).

Definition os_Stat (fs : FS) (name : string) : res FileInfo :=
  match fs !! name with
  | Some content => OK (mkFileInfo name (len content) false)
  | None => Fail ErrNotExist
  end.

Definition os_WriteFile (fs : FS) (name : string) (data : list byte)
  : FS * option error :=
  (<[name := data]> fs, None).

Definition os_ReadFile (fs : FS) (name : string) : res (list byte) :=
  match fs !! name with
  | Some content => OK content
  | None => Fail ErrNotExist
  end.

Definition os_Open (fs : FS) (name : string) : res File :=
  match fs !! name with
  | Some _ => OK (mkFile name 0)
  | None => Fail ErrNotExist
  end.

(** [os.Create] truncates the file when it exists. *)
Definition os_Create (fs : FS) (name : string) : FS * res File :=
  (<[name := []]> fs, OK (mkFile name 0)).

(** What is left to read from an open file. *)
Definition io_ReadAll (fs : FS) (f : File) : list byte :=
  dropZ (f_off f) (default [] (fs !! f_name f)).

(** [io.Copy(dst, src)]: the rest of [src] is written at the position of
    [dst]. *)
Definition io_Copy (fs : FS) (dst src : File) : FS * res Z :=
  let data := io_ReadAll fs src in
  let old := default [] (fs !! f_name dst) in
  (<[f_name dst :=
       takeZ (f_off dst) old ++ data ++ dropZ (f_off dst + len data) old]> fs,
   OK (len data)).

(** [make([]byte, n)] for [0 <= n]. *)
Definition zeros (n : Z) : list byte := replicate (Z.to_nat n) x00.

(** The longest slice of bytes that [make] allocates: [runtime.maxAlloc] on
    the 64-bit platforms; for a longer one it panics. *)
Definition maxAlloc : Z := 2 ^ 48.

(** [file.ReadAt(buf, off)] with [len(buf) = n]: the buffer afterwards, the
    number of bytes read and the error. *)
Definition File_ReadAt (fs : FS) (f : File) (n off : Z)
  : list byte * (Z * option error) :=
  if off <? 0 then (zeros n, (0, Some ErrNegativeOffset))
  else
    let data := takeZ n (dropZ off (default [] (fs !! f_name f))) in
    (data ++ zeros (n - len data),
     (len data, if len data <? n then Some EOF else None)).

(** ** The Local backend (local.go) *)

Module Local.

Definition IsExist (fs : FS) (filePath : string) : bool :=
  match os_Stat fs filePath with
  | OK info => bool_decide (0 < fi_size info)
  | Fail _ => false
  end.

Definition CreateFile `{RangeOrder} (fs : FS) (path : string)
    (file : list byte) (ttl : option Z) (meta : option (gmap string string))
  : FS * option error :=
  match meta with
  | Some m => os_WriteFile fs (path +:+ META_PREFIX) (meta2Bytes m)
  | None => os_WriteFile fs path file
  end.

(** The second half of [CopyFile], from the comment [//Meta file] on. *)
Definition copyMeta `{RangeOrder} (fs : FS) (src dst : string)
    (meta : option (gmap string string)) : FS * option error :=
  let stat := os_Stat fs (src +:+ META_PREFIX) in
  match stat with
  | Fail err =>
      if negb (os_IsNotExist err) then (fs, Some err)
      else match meta with
           | Some m => os_WriteFile fs (dst +:+ META_PREFIX) (meta2Bytes m)
           | None => (fs, None)
           end
  | OK currentMetaInfo =>
      if bool_decide (0 < fi_size currentMetaInfo) then
        match os_ReadFile fs (src +:+ META_PREFIX) with
        | Fail err => (fs, Some err)
        | OK currentMeta =>
            let currentMetaMap := mergeMeta (bytes2Meta currentMeta) meta in
            os_WriteFile fs (dst +:+ META_PREFIX) (meta2Bytes currentMetaMap)
        end
      else match meta with
           | Some m => os_WriteFile fs (dst +:+ META_PREFIX) (meta2Bytes m)
           | None => (fs, None)
           end
  end.

Definition CopyFile `{RangeOrder} (fs : FS) (src dst : string)
    (ttl : option Z) (meta : option (gmap string string))
  : FS * option error :=
  match os_Open fs src with
  | Fail err => (fs, Some err)
  | OK source =>
      match os_Create fs dst with
      | (fs, Fail err) => (fs, Some err)
      | (fs, OK destination) =>
          match io_Copy fs destination source with
          | (fs, Fail err) => (fs, Some err)
          | (fs, OK _) => copyMeta fs src dst meta
          end
      end
  end.

Definition GetFile (fs : FS) (path : string)
  : option (list byte) * option error :=
  if negb (IsExist fs path) then (None, None)
  else goPair (os_ReadFile fs path).

Definition Stat (fs : FS) (path : string)
  : option FileInfo * option (gmap string string) * option error :=
  match os_Stat fs path with
  | Fail err =>
      if os_IsNotExist err then (None, None, Some ErrFileNotFound)
      else (None, None, Some err)
  | OK info =>
      match GetFile fs (path +:+ META_PREFIX) with
      | (_, Some err) => (None, None, Some err)
      | (meta, None) => (Some info, Some (bytes2Meta (default [] meta)), None)
      end
  end.

(** [buf := make([]byte, length)] and what follows it in
    [GetFilePartially].  The buffer is taken to fit into memory: it is as
    long as a part of the file, or the statements keep it under
    [maxAlloc]. *)
Definition readInto (fs : FS) (file : File) (offset length : Z)
  : outcome (option (list byte) * option error) :=
  if length <? 0 then Panic "makeslice: len out of range"
  else
    let '(buf, (_, err)) := File_ReadAt fs file length offset in
    match err with
    | Some e => if decide (e ≠ EOF) then Return (None, Some e)
                else Return (Some buf, None)
    | None => Return (Some buf, None)
    end.

Definition GetFilePartially (fs : FS) (path : string) (offset length : Z)
  : outcome (option (list byte) * option error) :=
  if negb (IsExist fs path) then Return (None, None)
  else
    match os_Open fs path with
    | Fail err => Return (None, Some err)
    | OK file =>
        if length <? 0 then
          match Stat fs path with
          | (Some info, _, None) =>
              readInto fs file offset (wrap64 (fi_size info - offset))
          | (_, _, err) => Return (None, err)
          end
        else readInto fs file offset length
    end.

Definition FileReader (fs : FS) (path : string) (offset length : Z)
  : option File * option error :=
  if negb (IsExist fs path) then (None, None)
  else goPair (os_Open fs path).

End Local.

(** ** The WebDav backend (webdav.go)

    The calls of the gowebdav client on the server's files. *)

Definition client_Stat (fs : FS) (path : string) : res FileInfo :=
  os_Stat fs path.

Definition client_Write (fs : FS) (path : string) (data : list byte)
  : FS * option error :=
  (<[path := data]> fs, None).

Definition client_Read (fs : FS) (path : string) : res (list byte) :=
  os_ReadFile fs path.

(** [client.Copy(src, dst, true)]: the destination is overwritten; a
    resource cannot be copied onto itself, the server answers 403
    (RFC 4918, 9.8.5). *)
Definition client_Copy (fs : FS) (src dst : string) : FS * option error :=
  match fs !! src with
  | Some content =>
      if decide (src = dst) then (fs, Some (ErrOther "403 Forbidden"))
      else (<[dst := content]> fs, None)
  | None => (fs, Some ErrNotExist)
  end.

Module WebDav.

Definition IsExist (fs : FS) (filePath : string) : bool :=
  match client_Stat fs filePath with
  | OK info => bool_decide (0 < fi_size info)
  | Fail _ => false
  end.

Definition CreateFile `{RangeOrder} (fs : FS) (path : string)
    (file : list byte) (ttl : option Z) (meta : option (gmap string string))
  : FS * option error :=
  let '(fs, err) :=
    match meta with
    | Some m => client_Write fs (path +:+ META_PREFIX) (meta2Bytes m)
    | None => (fs, None)
    end in
  match err with
  | Some e => (fs, Some e)
  | None => client_Write fs path file
  end.

Definition GetFile (fs : FS) (path : string)
  : option (list byte) * option error :=
  if negb (IsExist fs path) then (None, None)
  else goPair (client_Read fs path).

Definition CopyFile `{RangeOrder} (fs : FS) (src dst : string)
    (ttl : option Z) (meta : option (gmap string string))
  : FS * option error :=
  let currMetaIsExist := IsExist fs (src +:+ META_PREFIX) in
  let '(fs, err) :=
    if currMetaIsExist then
      match GetFile fs (src +:+ META_PREFIX) with
      | (_, Some err) => (fs, Some err)
      | (currentMeta, None) =>
          let currentMetaMap :=
            mergeMeta (bytes2Meta (default [] currentMeta)) meta in
          client_Write fs (dst +:+ META_PREFIX) (meta2Bytes currentMetaMap)
      end
    else (fs, None) in
  match err with
  | Some e => (fs, Some e)
  | None => client_Copy fs src dst
  end.

Definition Stat (fs : FS) (path : string)
  : option FileInfo * option (gmap string string) * option error :=
  match client_Stat fs path with
  | Fail err => (None, None, Some err)
  | OK info =>
      let isExist := IsExist fs (path +:+ META_PREFIX) in
      if negb isExist then (Some info, None, None)
      else match client_Read fs (path +:+ META_PREFIX) with
           | Fail err => (None, None, Some err)
           | OK meta => (Some info, Some (bytes2Meta meta), None)
           end
  end.

End WebDav.

(** ** The Empty backend (empty.go): no state, no effect *)

Module Empty.

Definition IsExist (filePath : string) : bool := false.

Definition CreateFile (path : string) (file : list byte) (ttl : option Z)
    (meta : option (gmap string string)) : option error := None.

Definition CopyFile (src dst : string) (ttl : option Z)
    (meta : option (gmap string string)) : option error := None.

Definition GetFile (path : string) : option (list byte) * option error :=
  (None, None).

Definition GetFilePartially (path : string) (offset length : Z)
  : option (list byte) * option error := (None, None).

Definition Stat (path : string)
  : option FileInfo * option (gmap string string) * option error :=
  (None, None, None).

End Empty.

(** ** The object store behind the S3 client

    The service is modelled as the AWS API reference describes it: objects
    with a body and user metadata (the names in lower case, as the service
    keeps them), and multipart upload sessions that hold the parts received
    so far.  Every request can also be failed from
    outside, by the [fault] plan of the service or by a context that is
    already done; the requests that reached the service are recorded in
    [calls], oldest first. *)

Record Object : Type := mkObject {
  o_body : list byte;
  o_meta : gmap string string
}.

(** s3.CompletedPart *)
Record CompletedPart : Type := mkCompletedPart {
  ETag : string;
  PartNumber : Z
}.

#[global] Instance CompletedPart_eq_dec : EqDecision CompletedPart.
Proof. solve_decision. Defined.

(** An open multipart upload: the key it is for and, by part number, the
    tag and the bytes of each part received. *)
Record Upload : Type := mkUpload {
  u_key : string;
  u_parts : gmap Z (string * list byte)
}.

(** The [Range] header: ["bytes=%d-"] and ["bytes=%d-%d"]. *)
Inductive ByteRange : Type :=
  | RangeFrom (first : Z)
  | RangeBetween (first last : Z).

Inductive Call : Type :=
  | HeadObject (key : string)
  | PutObject (key : string) (body : list byte)
      (metadata : gmap string string)
  | CopyObject (src key : string) (metadata : gmap string string)
  | GetObject (key : string) (range : ByteRange)
  | CreateMultipartUpload (key : string)
  | UploadPart (uploadId : Z) (partNumber : Z) (body : list byte)
  | CompleteMultipartUpload (uploadId : Z) (parts : list CompletedPart)
  | AbortMultipartUpload (uploadId : Z).

Record Service : Type := mkService {
  S3Bucket : string;
  objects : gmap string Object;
  uploads : gmap Z Upload;
  nextUploadId : Z;
  etagOf : list byte → string;
  fault : Call → option error;
  calls : list Call
}.

(** context.Context: only whether it is done matters here. *)
Record Context : Type := mkContext { ctx_done : bool }.

Definition Background : Context := mkContext false.

Definition setObjects (s : Service) (o : gmap string Object) : Service :=
  mkService (S3Bucket s) o (uploads s) (nextUploadId s) (etagOf s) (fault s)
            (calls s).

Definition setUploads (s : Service) (u : gmap Z Upload) : Service :=
  mkService (S3Bucket s) (objects s) u (nextUploadId s) (etagOf s) (fault s)
            (calls s).

Definition bumpUploadId (s : Service) : Service :=
  mkService (S3Bucket s) (objects s) (uploads s) (nextUploadId s + 1)
            (etagOf s) (fault s) (calls s).

Definition logCall (s : Service) (c : Call) : Service :=
  mkService (S3Bucket s) (objects s) (uploads s) (nextUploadId s) (etagOf s)
            (fault s) (calls s ++ [c]).

(** A request: refused by the SDK when the context is done (the awserr code
    [request.CanceledErrorCode]), else recorded and either failed by the
    fault plan or handled by the service. *)
Definition request {A} (ctx : Context) (s : Service) (c : Call)
    (handle : Service → Service * res A) : Service * res A :=
  if ctx_done ctx then (s, Fail (AwsErr "RequestCanceled"))
  else
    let s := logCall s c in
    match fault s c with
    | Some e => (s, Fail e)
    | None => handle s
    end.

(** The smallest part that a multipart upload accepts anywhere but last,
    and the largest part number. *)
Definition minPartSize : Z := 5 * 1024 * 1024.
Definition maxPartNumber : Z := 10000.

(** ** Metadata as header fields

    The SDK sends the [Metadata] of an input as the header fields
    [x-amz-meta-<key>: <value>] and rebuilds the [Metadata] of an output from
    the fields of the answer.  This is that path: [rest.buildHeaderMap] and
    [rest.unmarshalHeaderMap] of the SDK, the field names and the checks of
    net/http ([textproto.CanonicalMIMEHeaderKey],
    [httpguts.ValidHeaderFieldName], [httpguts.ValidHeaderFieldValue]), and
    the service, which keeps the names of user metadata in lower case and
    joins the values sent under one name with a comma.  Strings are byte
    strings; of the white space that [strings.TrimSpace] cuts off, the ASCII
    part is modelled. *)

Definition byteIn (lo hi : N) (c : ascii) : bool :=
  ((lo <=? N_of_ascii c) && (N_of_ascii c <=? hi))%N.

Definition isLowerByte (c : ascii) : bool := byteIn 97 122 c.   (* 'a'..'z' *)
Definition isUpperByte (c : ascii) : bool := byteIn 65 90 c.    (* 'A'..'Z' *)
Definition isDigitByte (c : ascii) : bool := byteIn 48 57 c.    (* '0'..'9' *)

Definition toUpperByte (c : ascii) : ascii :=
  if isLowerByte c then ascii_of_N (N_of_ascii c - 32) else c.

Definition toLowerByte (c : ascii) : ascii :=
  if isUpperByte c then ascii_of_N (N_of_ascii c + 32) else c.

(** The bytes of a token (RFC 7230): [textproto.validHeaderFieldByte]. *)
Definition validHeaderFieldByte (c : ascii) : bool :=
  isLowerByte c || isUpperByte c || isDigitByte c
  || existsb (Ascii.eqb c) (list_ascii_of_string "!#$%&'*+-.^_`|~").

(** A byte that [httpguts.ValidHeaderFieldValue] accepts: no control
    character but the tabulator. *)
Definition validValueByte (c : ascii) : bool :=
  negb (byteIn 0 31 c || Ascii.eqb c "127") || Ascii.eqb c "009".

(** ASCII white space: tab, line feed, vertical tab, form feed, carriage
    return and space. *)
Definition isSpaceByte (c : ascii) : bool :=
  byteIn 9 13 c || Ascii.eqb c " ".

Definition isPrintByte (c : ascii) : bool := byteIn 32 126 c.

Fixpoint allBytes (p : ascii → bool) (s : string) : bool :=
  match s with
  | EmptyString => true
  | String c s' => p c && allBytes p s'
  end.

Fixpoint mapBytes (f : ascii → ascii) (s : string) : string :=
  match s with
  | EmptyString => EmptyString
  | String c s' => String (f c) (mapBytes f s')
  end.

Definition ToLower (s : string) : string := mapBytes toLowerByte s.

(** One step of the loop of [textproto.canonicalMIMEHeaderKey]: a letter
    becomes upper case at the start and after a hyphen, lower case
    elsewhere. *)
Definition canonByte (upper : bool) (c : ascii) : ascii :=
  if upper then toUpperByte c else toLowerByte c.

Fixpoint canonBytes (upper : bool) (s : string) : string :=
  match s with
  | EmptyString => EmptyString
  | String c s' =>
      let c' := canonByte upper c in
      String c' (canonBytes (Ascii.eqb c' "-") s')
  end.

(** A name with a byte that is no token byte is returned as it is. *)
Definition CanonicalMIMEHeaderKey (s : string) : string :=
  if allBytes validHeaderFieldByte s then canonBytes true s else s.

Definition ValidHeaderFieldName (s : string) : bool :=
  negb (String.eqb s "") && allBytes validHeaderFieldByte s.

Definition ValidHeaderFieldValue (s : string) : bool :=
  allBytes validValueByte s.

Fixpoint trimLeft (s : string) : string :=
  match s with
  | EmptyString => EmptyString
  | String c s' => if isSpaceByte c then trimLeft s' else s
  end.

Fixpoint trimRight (s : string) : string :=
  match s with
  | EmptyString => EmptyString
  | String c s' =>
      match trimRight s' with
      | EmptyString => if isSpaceByte c then EmptyString
                       else String c EmptyString
      | t => String c t
      end
  end.

Definition TrimSpace (s : string) : string := trimRight (trimLeft s).

(** The prefix of the fields that carry user metadata, and [k[len(prefix):]]. *)
Definition amzMeta : string := "x-amz-meta-".

Definition dropPrefix (k : string) : string :=
  String.substring (String.length amzMeta)
    (String.length k - String.length amzMeta) k.

(** [rest.buildHeaderMap]: one [header.Add(prefix+TrimSpace(key),
    TrimSpace(value))] for each entry, in the order of [range]; [Add] files
    the value under the canonical form of the name. *)
Definition buildHeaderMap `{RangeOrder} (metadata : gmap string string)
  : list (string * string) :=
  (λ kv, (CanonicalMIMEHeaderKey (amzMeta +:+ TrimSpace kv.1),
          TrimSpace kv.2)) <$> rangeOrder metadata.

(** The check of net/http's transport before a request is written. *)
Definition validHeaders (header : list (string * string)) : bool :=
  forallb (λ f, ValidHeaderFieldName f.1 && ValidHeaderFieldValue f.2) header.

(** What the service keeps of one field and of all of them. *)
Definition addField (acc : gmap string string) (f : string * string)
  : gmap string string :=
  let name := ToLower (dropPrefix f.1) in
  match acc !! name with
  | Some old => <[name := old +:+ "," +:+ f.2]> acc
  | None => <[name := f.2]> acc
  end.

Definition userMetadata (header : list (string * string))
  : gmap string string :=
  foldl addField ∅ header.

(** The user metadata that reach the service for the [Metadata] of an input;
    [None] when a field is refused before anything is sent. *)
Definition sendMetadata `{RangeOrder} (metadata : gmap string string)
  : option (gmap string string) :=
  let header := buildHeaderMap metadata in
  if validHeaders header then Some (userMetadata header) else None.

(** [rest.unmarshalHeaderMap], as the client is configured by [init]
    (no [LowerCaseHeaderMaps]): the fields [x-amz-meta-<name>] of the
    answer, whose names net/http has made canonical, with the prefix cut
    off. *)
Definition unmarshalHeaderMap (stored : gmap string string)
  : gmap string string :=
  list_to_map
    ((λ kv, (dropPrefix (CanonicalMIMEHeaderKey (amzMeta +:+ kv.1)), kv.2))
       <$> map_to_list stored).

(** With one request the service accepts 2 KB of user metadata, counted as
    the bytes of the names and of the values. *)
Definition maxMetadataSize : nat := 2048%nat.

Definition metadataSize (m : gmap string string) : nat :=
  sum_list_with (λ kv, String.length kv.1 + String.length kv.2)%nat
    (map_to_list m).

(** The key under which an entry of key [k] comes back. *)
Definition canonKey (k : string) : string := canonBytes true k.

(** A mapping with every key in the case in which it comes back. *)
Definition canonKeys (m : gmap string string) : gmap string string :=
  list_to_map ((λ kv, (canonKey kv.1, kv.2)) <$> map_to_list m).

(** A key that can be the name of a header field, a value that travels
    unchanged, and the mappings made of them. *)
Definition headerToken (k : string) : Prop :=
  k ≠ "" ∧ allBytes validHeaderFieldByte k = true.

Definition plainValue (v : string) : Prop :=
  v ≠ "" ∧ allBytes isPrintByte v = true ∧ TrimSpace v = v.

(** No two keys differ in case only. *)
Definition distinctKeys (m : gmap string string) : Prop :=
  ∀ k1 k2, is_Some (m !! k1) → is_Some (m !! k2) →
    canonKey k1 = canonKey k2 → k1 = k2.

Definition sendable (m : gmap string string) : Prop :=
  map_Forall (λ k v, headerToken k ∧ plainValue v) m ∧ distinctKeys m ∧
  (metadataSize m ≤ maxMetadataSize)%nat.

(** Keys in the case in which they come back. *)
Definition canonicalMeta (m : gmap string string) : Prop :=
  map_Forall (λ k v, headerToken k ∧ canonKey k = k ∧ plainValue v) m.

(** Metadata within the limit of the service. *)
Definition fitting (m : gmap string string) : Prop :=
  (metadataSize m ≤ maxMetadataSize)%nat.

#[global] Instance canonicalMeta_dec m : Decision (canonicalMeta m).
Proof. unfold canonicalMeta, headerToken, plainValue. apply _. Defined.

#[global] Instance fitting_dec m : Decision (fitting m).
Proof. unfold fitting. apply _. Defined.

(** s3.HeadObjectOutput *)
Record HeadObjectOutput : Type := mkHeadObjectOutput {
  ContentLength : Z;
  Metadata : gmap string string
}.

Definition client_HeadObject (ctx : Context) (s : Service) (key : string)
  : Service * res HeadObjectOutput :=
  request ctx s (HeadObject key) (λ s,
    match objects s !! key with
    | Some o =>
        (s, OK (mkHeadObjectOutput (len (o_body o))
                  (unmarshalHeaderMap (o_meta o))))
    | None => (s, Fail (AwsErr "NotFound"))
    end).

(** PutObject as the service receives it: [metadata] are the user metadata
    of the request, as the service keeps them. *)
Definition client_PutObject (ctx : Context) (s : Service) (key : string)
    (body : list byte) (metadata : gmap string string)
  : Service * res unit :=
  request ctx s (PutObject key body metadata) (λ s,
    if bool_decide (maxMetadataSize < metadataSize metadata)%nat
    then (s, Fail (AwsErr "MetadataTooLarge"))
    else
      (setObjects s (<[key := mkObject body metadata]> (objects s)), OK tt)).

(** CopyObject with the metadata directive REPLACE, as the service receives
    it. *)
Definition client_CopyObject (ctx : Context) (s : Service) (src key : string)
    (metadata : gmap string string) : Service * res unit :=
  request ctx s (CopyObject src key metadata) (λ s,
    if bool_decide (maxMetadataSize < metadataSize metadata)%nat
    then (s, Fail (AwsErr "MetadataTooLarge"))
    else
      match objects s !! src with
      | Some o =>
          (setObjects s (<[key := mkObject (o_body o) metadata]> (objects s)),
           OK tt)
      | None => (s, Fail (AwsErr "NoSuchKey"))
      end).

(** [PutObjectWithContext] and [CopyObjectWithContext] of the SDK for an
    input with [Metadata]: the fields are built and checked, and the request
    is made when net/http accepts them; otherwise the call fails with the
    awserr code [request.ErrCodeRequestError] (or as canceled, when the
    context is done) and nothing is sent. *)
Definition client_PutObjectWithContext `{RangeOrder} (ctx : Context)
    (s : Service) (key : string) (body : list byte)
    (metadata : gmap string string) : Service * res unit :=
  match sendMetadata metadata with
  | Some received => client_PutObject ctx s key body received
  | None =>
      (s, Fail (AwsErr (if ctx_done ctx then "RequestCanceled"
                        else "RequestError")))
  end.

Definition client_CopyObjectWithContext `{RangeOrder} (ctx : Context)
    (s : Service) (src key : string) (metadata : gmap string string)
  : Service * res unit :=
  match sendMetadata metadata with
  | Some received => client_CopyObject ctx s src key received
  | None =>
      (s, Fail (AwsErr (if ctx_done ctx then "RequestCanceled"
                        else "RequestError")))
  end.

(** The bytes a range selects from a body of [size] bytes: [None] when the
    range cannot be satisfied; a range that is not well formed is ignored. *)
Definition selectRange (range : ByteRange) (body : list byte)
  : option (list byte) :=
  match range with
  | RangeFrom first =>
      if first <? 0 then Some body
      else if len body <=? first then None
      else Some (dropZ first body)
  | RangeBetween first last =>
      if (first <? 0) || (last <? first) then Some body
      else if len body <=? first then None
      else Some (takeZ (last - first + 1) (dropZ first body))
  end.

Definition client_GetObject (ctx : Context) (s : Service) (key : string)
    (range : ByteRange) : Service * res (list byte) :=
  request ctx s (GetObject key range) (λ s,
    match objects s !! key with
    | None => (s, Fail (AwsErr "NoSuchKey"))
    | Some o =>
        match selectRange range (o_body o) with
        | Some bytes => (s, OK bytes)
        | None => (s, Fail (AwsErr "InvalidRange"))
        end
    end).

(** s3.CreateMultipartUploadOutput *)
Record CreateMultipartUploadOutput : Type := mkCreateMultipartUploadOutput {
  Bucket : string;
  Key : string;
  UploadId : Z
}.

Definition client_CreateMultipartUpload (ctx : Context) (s : Service)
    (key : string) : Service * res CreateMultipartUploadOutput :=
  request ctx s (CreateMultipartUpload key) (λ s,
    let id := nextUploadId s in
    (bumpUploadId (setUploads s (<[id := mkUpload key ∅]> (uploads s))),
     OK (mkCreateMultipartUploadOutput (S3Bucket s) key id))).

(** UploadPart: the part replaces an earlier one of the same number; the
    answer is its tag. *)
Definition client_UploadPart (ctx : Context) (s : Service) (uploadId : Z)
    (partNumber : Z) (body : list byte) : Service * res string :=
  request ctx s (UploadPart uploadId partNumber body) (λ s,
    match uploads s !! uploadId with
    | None => (s, Fail (AwsErr "NoSuchUpload"))
    | Some u =>
        if (partNumber <? 1) || (maxPartNumber <? partNumber)
        then (s, Fail (AwsErr "InvalidArgument"))
        else
          let tag := etagOf s body in
          (setUploads s
             (<[uploadId :=
                  mkUpload (u_key u) (<[partNumber := (tag, body)]> (u_parts u))]>
                (uploads s)),
           OK tag)
    end).

(** The bodies of the listed parts, when each is known under its tag. *)
Fixpoint partBodies (have : gmap Z (string * list byte))
    (parts : list CompletedPart) : option (list (list byte)) :=
  match parts with
  | [] => Some []
  | p :: ps =>
      match have !! PartNumber p with
      | Some (tag, body) =>
          if decide (tag = ETag p)
          then match partBodies have ps with
               | Some bs => Some (body :: bs)
               | None => None
               end
          else None
      | None => None
      end
  end.

Fixpoint ascending (parts : list CompletedPart) : bool :=
  match parts with
  | p :: ((q :: _) as ps) => (PartNumber p <? PartNumber q) && ascending ps
  | _ => true
  end.

(** Every body but the last has at least the minimal size. *)
Fixpoint bigEnough (bodies : list (list byte)) : bool :=
  match bodies with
  | b :: ((_ :: _) as bs) => (minPartSize <=? len b) && bigEnough bs
  | _ => true
  end.

Definition client_CompleteMultipartUpload (ctx : Context) (s : Service)
    (uploadId : Z) (parts : list CompletedPart) : Service * res unit :=
  request ctx s (CompleteMultipartUpload uploadId parts) (λ s,
    match uploads s !! uploadId with
    | None => (s, Fail (AwsErr "NoSuchUpload"))
    | Some u =>
        match parts with
        | [] => (s, Fail (AwsErr "MalformedXML"))
        | _ =>
            if negb (ascending parts)
            then (s, Fail (AwsErr "InvalidPartOrder"))
            else match partBodies (u_parts u) parts with
                 | None => (s, Fail (AwsErr "InvalidPart"))
                 | Some bodies =>
                     if negb (bigEnough bodies)
                     then (s, Fail (AwsErr "EntityTooSmall"))
                     else
                       (setUploads
                          (setObjects s
                             (<[u_key u := mkObject (concat bodies) ∅]>
                                (objects s)))
                          (delete uploadId (uploads s)),
                        OK tt)
                 end
        end
    end).

Definition client_AbortMultipartUpload (ctx : Context) (s : Service)
    (uploadId : Z) : Service * res unit :=
  request ctx s (AbortMultipartUpload uploadId) (λ s,
    match uploads s !! uploadId with
    | None => (s, Fail (AwsErr "NoSuchUpload"))
    | Some _ => (setUploads s (delete uploadId (uploads s)), OK tt)
    end).

(** ** Byte sources (io.Reader)

    A reader is a state and a [Read] step: asked to fill a buffer of [n]
    bytes it hands over some bytes, at most [n] of them, and an error or
    none.  It may hand over fewer bytes than the buffer holds. *)

Record Reader : Type := mkReader {
  r_state : Type;
  r_cur : r_state;
  r_read : r_state → Z → list byte * option error * r_state
}.

Definition Read (stream : Reader) (n : Z)
  : list byte * option error * Reader :=
  let '(data, err, st) := r_read stream (r_cur stream) n in
  (data, err, mkReader (r_state stream) st (r_read stream)).

(** bytes.Reader: all that fits, then [io.EOF]. *)
Definition bytesReader (data : list byte) : Reader :=
  mkReader (list byte) data (λ rest n,
    match rest with
    | [] => ([], Some EOF, rest)
    | _ => (takeZ n rest, None, dropZ n rest)
    end).

(** iotest.OneByteReader over a bytes.Reader: one byte per call. *)
Definition oneByteReader (data : list byte) : Reader :=
  mkReader (list byte) data (λ rest n,
    if n =? 0 then ([], None, rest)
    else match rest with
         | [] => ([], Some EOF, rest)
         | _ => (takeZ 1 rest, None, dropZ 1 rest)
         end).

(** iotest.ErrReader: every call fails. *)
Definition errReader (err : error) : Reader :=
  mkReader unit tt (λ st n, ([], Some err, st)).

(** ** The S3 backend (s3.go) *)

Module S3.

(** The [err] of a call whose other result is dropped. *)
Definition errOf {A} (r : res A) : option error :=
  match r with
  | OK _ => None
  | Fail e => Some e
  end.

(** aws.StringMap and aws.StringValueMap: a [nil] map becomes an empty one. *)
Definition StringMap (meta : option (gmap string string))
  : gmap string string := default ∅ meta.

Definition IsExist (s : Service) (filePath : string) : Service * bool :=
  match client_HeadObject Background s filePath with
  | (s, Fail _) => (s, false)
  | (s, OK _) => (s, true)
  end.

Definition CreateFileWithContext `{RangeOrder} (ctx : Context) (s : Service)
    (path : string) (file : list byte) (ttl : option Z)
    (meta : option (gmap string string)) : Service * option error :=
  let '(s, r) :=
    client_PutObjectWithContext ctx s path file (StringMap meta) in
  (s, errOf r).

Definition CreateFile `{RangeOrder} (s : Service) (path : string)
    (file : list byte) (ttl : option Z) (meta : option (gmap string string))
  : Service * option error :=
  CreateFileWithContext Background s path file ttl meta.

Definition CopyFileWithContext `{RangeOrder} (ctx : Context) (s : Service)
    (src dst : string) (ttl : option Z) (meta : option (gmap string string))
  : Service * option error :=
  match client_HeadObject ctx s src with
  | (s, Fail err) => (s, Some err)
  | (s, OK head) =>
      let currentMeta := mergeMeta (Metadata head) meta in
      let '(s, r) :=
        client_CopyObjectWithContext ctx s src dst currentMeta in
      (s, errOf r)
  end.

Definition CopyFile `{RangeOrder} (s : Service) (src dst : string)
    (ttl : option Z) (meta : option (gmap string string))
  : Service * option error :=
  CopyFileWithContext Background s src dst ttl meta.

Definition abortMultipartUpload (ctx : Context) (s : Service)
    (resp : CreateMultipartUploadOutput) : Service * option error :=
  let '(s, r) := client_AbortMultipartUpload ctx s (UploadId resp) in
  (s, errOf r).

Definition completeMultipartUpload (ctx : Context) (s : Service)
    (resp : CreateMultipartUploadOutput) (completedParts : list CompletedPart)
  : Service * res unit :=
  client_CompleteMultipartUpload ctx s (UploadId resp) completedParts.

(** The size of [buf] in [StreamToFileWithContext]. *)
Definition bufSize : Z := 1024 * 1024 * 5.

(** How the [for] loop of [StreamToFileWithContext] is left: by [return]
    with an error, or by [break] with the parts completed so far. *)
Inductive loopExit : Type :=
  | Returned (err : option error)
  | Broke (completedParts : list CompletedPart).

(** The loop, run for at most [fuel] rounds; [None] when they do not
    suffice. *)
Fixpoint uploadLoop (fuel : nat) (ctx : Context) (s : Service)
    (stream : Reader) (path : string) (resp : CreateMultipartUploadOutput)
    (partNumber : Z) (completedParts : list CompletedPart)
  : option (Service * Reader * loopExit) :=
  match fuel with
  | O => None
  | S fuel =>
      let '(data, err, stream) := Read stream bufSize in
      let n := len data in
      if bool_decide (err ≠ None ∧ err ≠ Some EOF)
      then Some (s, stream, Returned err)
      else if n =? 0 then Some (s, stream, Broke completedParts)
      else
        match client_UploadPart ctx s (UploadId resp) partNumber data with
        | (s, Fail err) =>
            match abortMultipartUpload ctx s resp with
            | (s, Some abortErr) => Some (s, stream, Returned (Some abortErr))
            | (s, None) => Some (s, stream, Returned (Some err))
            end
        | (s, OK tag) =>
            uploadLoop fuel ctx s stream path resp (wrap64 (partNumber + 1))
              (completedParts ++ [mkCompletedPart tag partNumber])
        end
  end.

Definition StreamToFileWithContext (fuel : nat) (ctx : Context)
    (s : Service) (stream : Reader) (path : string) (ttl : option Z)
  : option (Service * Reader * option error) :=
  match client_CreateMultipartUpload ctx s path with
  | (s, Fail err) => Some (s, stream, Some err)
  | (s, OK resp) =>
      match uploadLoop fuel ctx s stream path resp 1 [] with
      | None => None
      | Some (s, stream, Returned err) => Some (s, stream, err)
      | Some (s, stream, Broke completedParts) =>
          let '(s, r) := completeMultipartUpload ctx s resp completedParts in
          Some (s, stream, errOf r)
      end
  end.

Definition StreamToFile (fuel : nat) (s : Service) (stream : Reader)
    (path : string) (ttl : option Z)
  : option (Service * Reader * option error) :=
  StreamToFileWithContext fuel Background s stream path ttl.

(** The reader returned is the body of the answer, here the bytes that
    reading it to the end yields. *)
Definition FileReaderWithContext (ctx : Context) (s : Service)
    (path : string) (offset length : Z)
  : Service * (option (list byte) * option error) :=
  let _range :=
    if 0 <? length
    then RangeBetween offset (wrap64 (wrap64 (offset + length) - 1))
    else RangeFrom offset in
  match client_GetObject ctx s path _range with
  | (s, Fail err) => (s, (None, Some err))
  | (s, OK body) => (s, (Some body, None))
  end.

Definition GetFileWithContext (ctx : Context) (s : Service) (path : string)
  : Service * (option (list byte) * option error) :=
  match FileReaderWithContext ctx s path 0 0 with
  | (s, (_, Some err)) => (s, (None, Some err))
  | (s, (stream, None)) => (s, (Some (default [] stream), None))
  end.

Definition GetFile (s : Service) (path : string)
  : Service * (option (list byte) * option error) :=
  GetFileWithContext Background s path.

Definition GetFilePartiallyWithContext (ctx : Context) (s : Service)
    (path : string) (offset length : Z)
  : Service * (option (list byte) * option error) :=
  match FileReaderWithContext ctx s path offset length with
  | (s, (_, Some err)) => (s, (None, Some err))
  | (s, (stream, None)) => (s, (Some (default [] stream), None))
  end.

Definition GetFilePartially (s : Service) (path : string)
    (offset length : Z) : Service * (option (list byte) * option error) :=
  GetFilePartiallyWithContext Background s path offset length.

Definition StatWithContext (ctx : Context) (s : Service) (path : string)
  : Service * (option FileInfo * option (gmap string string) * option error) :=
  match client_HeadObject ctx s path with
  | (s, Fail err) => (s, (None, None, Some err))
  | (s, OK out) =>
      (s, (Some (mkFileInfo path (ContentLength out) false),
           Some (Metadata out), None))
  end.

Definition Stat (s : Service) (path : string)
  : Service * (option FileInfo * option (gmap string string) * option error) :=
  StatWithContext Background s path.

End S3.

(** A service without objects or uploads on which no request fails; the tag
    of a part is taken from its bytes. *)
Definition emptyService : Service :=
  mkService "bucket" ∅ ∅ 0 string_of_list_byte (λ _, None) [].

(** ** Reading results *)

(** The metadata and the error of what [Stat] returns; a [nil] map reads as
    an empty one. *)
Definition statMeta
    (r : option FileInfo * option (gmap string string) * option error)
  : gmap string string := default ∅ r.1.2.

Definition statErr
    (r : option FileInfo * option (gmap string string) * option error)
  : option error := r.2.

(** The service answers every request. *)
Definition noFault (s : Service) : Prop := ∀ c, fault s c = None.

(** The files of the examples: a source ["src"] with the sidecar
    ["owner=bob\nteam=x\n"], on a file backend and in a bucket. *)
Definition bobMeta : gmap string string :=
  {[ "owner" := "bob"; "team" := "x" ]}.

Definition bobFiles : FS :=
  {[ "src" := list_byte_of_string "data";
     "src.meta" := list_byte_of_string "owner=bob" ++ [NL]
                   ++ list_byte_of_string "team=x" ++ [NL] ]}.

Definition bobBucket : Service :=
  setObjects emptyService
    {[ "src" := mkObject (list_byte_of_string "data") bobMeta ]}.

(** ** Describing an upload *)

(** The consecutive pieces of [n] bytes of [d], the last one possibly
    shorter; [fuel] bounds their number. *)
Fixpoint chunksOf (fuel : nat) (n : Z) (d : list byte) : list (list byte) :=
  match fuel with
  | O => []
  | S fuel =>
      match d with
      | [] => []
      | _ => takeZ n d :: chunksOf fuel n (dropZ n d)
      end
  end.

Definition chunks (n : Z) (d : list byte) : list (list byte) :=
  chunksOf (length d) n d.

(** The requests that upload [cs] as the parts [pn], [pn + 1], ... and the
    list of completed parts they give. *)
Fixpoint partCalls (id pn : Z) (cs : list (list byte)) : list Call :=
  match cs with
  | [] => []
  | c :: cs => UploadPart id pn c :: partCalls id (pn + 1) cs
  end.

Fixpoint partTags (tag : list byte → string) (pn : Z)
    (cs : list (list byte)) : list CompletedPart :=
  match cs with
  | [] => []
  | c :: cs => mkCompletedPart (tag c) pn :: partTags tag (pn + 1) cs
  end.

(** The parts held by a session after these requests. *)
Fixpoint partsMap (have : gmap Z (string * list byte))
    (tag : list byte → string) (pn : Z) (cs : list (list byte))
  : gmap Z (string * list byte) :=
  match cs with
  | [] => have
  | c :: cs => partsMap (<[pn := (tag c, c)]> have) tag (pn + 1) cs
  end.

(** The service after them. *)
Fixpoint afterParts (s : Service) (id pn : Z) (cs : list (list byte))
  : Service :=
  match cs with
  | [] => s
  | c :: cs =>
      afterParts (client_UploadPart Background s id pn c).1 id (pn + 1) cs
  end.

(** [fills n stream d]: the reader hands over the data [d] and fills every
    buffer of [n] bytes as long as that much data remains; the end of the
    data is a read of no bytes, with [io.EOF] or without an error. *)
Inductive fills (n : Z) : Reader → list byte → Prop :=
  | fills_end stream err stream' :
      Read stream n = ([], err, stream') →
      err = None ∨ err = Some EOF →
      fills n stream []
  | fills_more stream d err stream' :
      d ≠ [] →
      Read stream n = (takeZ n d, err, stream') →
      err = None ∨ err = Some EOF →
      fills n stream' (dropZ n d) →
      fills n stream d.

(** What is looked at after a call of [StreamToFile]: the requests made, the
    error returned, the object at [path] and the open uploads. *)
Definition observe (path : string)
    (r : option (Service * Reader * option error))
  : option (list Call * option error * option Object * list (Z * Upload)) :=
  match r with
  | Some (s, _, err) =>
      Some (calls s, err, objects s !! path, map_to_list (uploads s))
  | None => None
  end.

(** A service on which every UploadPart request fails. *)
Definition noUploadService : Service :=
  mkService "bucket" ∅ ∅ 0 string_of_list_byte
    (λ c, match c with
          | UploadPart _ _ _ => Some (ErrOther "upload failed")
          | _ => None
          end) [].

(** ** Further operations of the Local backend (local.go) *)

(** [os.Remove] of a regular file. *)
Definition os_Remove (fs : FS) (name : string) : FS * option error :=
  match fs !! name with
  | Some _ => (delete name fs, None)
  | None => (fs, Some ErrNotExist)
  end.

(** [file.Write(data)]: the bytes go to the position of the file, which
    moves on. *)
Definition File_Write (fs : FS) (f : File) (data : list byte)
  : FS * File * res Z :=
  let old := default [] (fs !! f_name f) in
  (<[f_name f :=
       takeZ (f_off f) old ++ data ++ dropZ (f_off f + len data) old]> fs,
   mkFile (f_name f) (f_off f + len data),
   OK (len data)).

Module LocalOps.

Definition RemoveFile (fs : FS) (path : string) : FS * option error :=
  let '(fs, _) := os_Remove fs (path +:+ META_PREFIX) in
  let '(fs, err) := os_Remove fs path in
  match err with
  | Some e => if os_IsNotExist e then (fs, Some ErrFileNotFound)
              else (fs, Some e)
  | None => (fs, None)
  end.

(** The second half of [MoveFile], from the stat of the sidecar on. *)
Definition moveMeta (fs : FS) (src dst : string) : FS * option error :=
  match os_Stat fs (src +:+ META_PREFIX) with
  | Fail err =>
      if negb (os_IsNotExist err) then (fs, Some err) else (fs, None)
  | OK metaFile =>
      if bool_decide (0 < fi_size metaFile) then
        match os_Open fs (src +:+ META_PREFIX) with
        | Fail err => (fs, Some err)
        | OK metaInputFile =>
            match os_Create fs (dst +:+ META_PREFIX) with
            | (fs, Fail err) => (fs, Some err)
            | (fs, OK metaOutputFile) =>
                match io_Copy fs metaOutputFile metaInputFile with
                | (fs, Fail err) => (fs, Some err)
                | (fs, OK _) => os_Remove fs (src +:+ META_PREFIX)
                end
            end
        end
      else (fs, None)
  end.

Definition MoveFile (fs : FS) (src dst : string) : FS * option error :=
  let notExist :=
    match os_Stat fs src with
    | Fail err => os_IsNotExist err
    | OK _ => false
    end in
  if notExist then (fs, Some ErrFileNotFound)
  else
    match os_Open fs src with
    | Fail err => (fs, Some err)
    | OK inputFile =>
        match os_Create fs dst with
        | (fs, Fail err) => (fs, Some err)
        | (fs, OK outputFile) =>
            match io_Copy fs outputFile inputFile with
            | (fs, Fail err) => (fs, Some err)
            | (fs, OK _) =>
                match os_Remove fs src with
                | (fs, Some err) => (fs, Some err)
                | (fs, None) => moveMeta fs src dst
                end
            end
        end
    end.

(** The size of [buf] in [StreamToFile]. *)
Definition bufSize : Z := 1024 * 1024.

(** The loop of [StreamToFile], run for at most [fuel] rounds. *)
Fixpoint writeLoop (fuel : nat) (fs : FS) (file : File) (stream : Reader)
  : option (FS * Reader * option error) :=
  match fuel with
  | O => None
  | S fuel =>
      let '(data, err, stream) := Read stream bufSize in
      let n := len data in
      if bool_decide (err ≠ None ∧ err ≠ Some EOF)
      then Some (fs, stream, err)
      else if n =? 0 then Some (fs, stream, None)
      else
        match File_Write fs file data with
        | (fs, _, Fail err) => Some (fs, stream, Some err)
        | (fs, file, OK _) => writeLoop fuel fs file stream
        end
  end.

Definition StreamToFile (fuel : nat) (fs : FS) (stream : Reader)
    (path : string) (ttl : option Z)
  : option (FS * Reader * option error) :=
  match os_Create fs path with
  | (fs, Fail err) => Some (fs, stream, Some err)
  | (fs, OK file) => writeLoop fuel fs file stream
  end.

End LocalOps.

(** ** A further operation of the S3 backend (s3.go) *)

Module S3Ops.

Definition MkdirAllWithContext (ctx : Context) (s : Service) (path : string)
  : Service * option error :=
  let '(s, r) := client_PutObject ctx s path [] (S3.StringMap None) in
  (s, S3.errOf r).

Definition MkdirAll (s : Service) (path : string) : Service * option error :=
  MkdirAllWithContext Background s path.

End S3Ops.

(** ** Describing a source *)

(** [delivers n stream d end]: read with buffers of [n] bytes, the reader
    hands over the data [d] in pieces of any size, and then either a read of
    no bytes ([end] is [None]) or a read that fails with an error other than
    [io.EOF] ([end] is that error). *)
Inductive delivers (n : Z) : Reader → list byte → option error → Prop :=
  | delivers_end stream err stream' :
      Read stream n = ([], err, stream') →
      err = None ∨ err = Some EOF →
      delivers n stream [] None
  | delivers_fail stream data e stream' :
      Read stream n = (data, Some e, stream') →
      e ≠ EOF →
      delivers n stream [] (Some e)
  | delivers_more stream data err stream' d fin :
      data ≠ [] →
      Read stream n = (data, err, stream') →
      err = None ∨ err = Some EOF →
      delivers n stream' d fin →
      delivers n stream (data ++ d) fin.

(** The entries that the line format carries: no '=' in key or value. *)
Definition eqFree (kv : string * string) : Prop :=
  (EQ ∉ list_byte_of_string kv.1) ∧ (EQ ∉ list_byte_of_string kv.2).

#[global] Instance eqFree_dec kv : Decision (eqFree kv).
Proof. unfold eqFree. apply _. Defined.

(** A mapping without a newline in any key or value. *)
Definition nlFree (m : gmap string string) : Prop :=
  map_Forall (λ k v, (NL ∉ list_byte_of_string k)
                     ∧ (NL ∉ list_byte_of_string v)) m.

#[global] Instance nlFree_dec m : Decision (nlFree m).
Proof. unfold nlFree. apply _. Defined.

(** A service on which the request to finalize an upload fails. *)
Definition noCompleteService : Service :=
  mkService "bucket" ∅ ∅ 0 string_of_list_byte
    (λ c, match c with
          | CompleteMultipartUpload _ _ => Some (ErrOther "complete failed")
          | _ => None
          end) [].

(** * Properties *)

(** ** The codec *)

Section codec_lemmas.
Context `{RangeOrder}.

Lemma bytesSplit_no_sep sep l : sep ∉ l → bytesSplit sep l = [l].
Proof.
  induction l as [|c l IH]; [done|].
  intros Hn. apply not_elem_of_cons in Hn as [Hc Hl]. simpl.
  destruct (decide (c = sep)); [congruence|]. by rewrite IH.
Qed.

Lemma bytesSplit_app sep l rest :
  sep ∉ l → bytesSplit sep (l ++ sep :: rest) = l :: bytesSplit sep rest.
Proof.
  induction l as [|c l IH]; simpl.
  - intros _. by destruct (decide (sep = sep)).
  - intros Hn. apply not_elem_of_cons in Hn as [Hc Hl].
    destruct (decide (c = sep)); [congruence|]. by rewrite IH.
Qed.

Lemma bytesSplit_pair k v :
  EQ ∉ k → EQ ∉ v → bytesSplit EQ (k ++ EQ :: v) = [k; v].
Proof.
  intros Hk Hv. rewrite bytesSplit_app by done. by rewrite bytesSplit_no_sep.
Qed.

Lemma foldl_fprintfPair b kvs :
  foldl fprintfPair b kvs = b ++ foldl fprintfPair [] kvs.
Proof.
  revert b. induction kvs as [|kv kvs IH]; intros b; simpl.
  - by rewrite app_nil_r.
  - rewrite IH. rewrite (IH (fprintfPair [] kv)).
    unfold fprintfPair. simpl. by rewrite <- !app_assoc.
Qed.

(** Decoding the lines written for [kvs] replays the insertions. *)
Lemma bytes2Meta_lines kvs (acc : gmap string string) :
  Forall (λ kv : string * string, cleanString kv.1 ∧ cleanString kv.2) kvs →
  foldl bytes2MetaLine acc (bytesSplit NL (foldl fprintfPair [] kvs))
  = foldl (λ cur kv, <[kv.1 := kv.2]> cur) acc kvs.
Proof.
  intros Hc. revert acc. induction Hc as [|[k v] kvs [Hk Hv] _ IH]; intros acc.
  - simpl. unfold bytes2MetaLine. simpl. done.
  - simpl. rewrite foldl_fprintfPair. unfold fprintfPair at 1. simpl.
    destruct Hk as [Hk1 Hk2], Hv as [Hv1 Hv2]; simpl in *.
    replace (list_byte_of_string k ++ EQ :: list_byte_of_string v ++ [NL])
      with ((list_byte_of_string k ++ EQ :: list_byte_of_string v) ++ [NL])
      by (by rewrite <- app_assoc).
    rewrite <- app_assoc. simpl.
    rewrite bytesSplit_app.
    2:{ rewrite elem_of_app, elem_of_cons. intros [?|[?|?]]; done. }
    simpl. rewrite IH. f_equal.
    unfold bytes2MetaLine.
    destruct (decide _) as [Hz|_].
    { unfold len in Hz. rewrite length_app in Hz. simpl in Hz. lia. }
    rewrite bytesSplit_pair by done. simpl.
    by rewrite !string_of_list_byte_of_string.
Qed.

Lemma foldl_insert_lookup (kvs : list (string * string))
    (acc : gmap string string) k :
  NoDup kvs.*1 →
  foldl (λ cur kv, <[kv.1 := kv.2]> cur) acc kvs !! k
  = match list_to_map (M := gmap string string) kvs !! k with
    | Some v => Some v
    | None => acc !! k
    end.
Proof.
  revert acc. induction kvs as [|[k' v'] kvs IH]; intros acc Hnd; simpl.
  - by rewrite lookup_empty.
  - apply NoDup_cons in Hnd as [Hnotin Hnd]. rewrite IH by done.
    destruct (decide (k' = k)) as [->|Hne].
    + rewrite lookup_insert_eq.
      rewrite (not_elem_of_list_to_map_1 _ k) by done.
      by rewrite lookup_insert_eq.
    + rewrite (lookup_insert_ne (list_to_map kvs)) by done.
      destruct (list_to_map kvs !! k); [done|]. by rewrite lookup_insert_ne.
Qed.

Lemma foldl_insert_union (m acc : gmap string string) :
  foldl (λ cur kv, <[kv.1 := kv.2]> cur) acc (rangeOrder m) = m ∪ acc.
Proof.
  apply map_eq. intros k.
  assert (Hnd : NoDup (rangeOrder m).*1).
  { rewrite (rangeOrder_perm m). apply NoDup_fst_map_to_list. }
  rewrite foldl_insert_lookup by done.
  rewrite (list_to_map_proper (rangeOrder m) (map_to_list m)
             Hnd (rangeOrder_perm m)).
  rewrite list_to_map_to_list, lookup_union.
  destruct (m !! k), (acc !! k); done.
Qed.

Lemma mergeMeta_union current meta :
  mergeMeta current meta = default ∅ meta ∪ current.
Proof.
  destruct meta as [m|]; simpl.
  - apply foldl_insert_union.
  - by rewrite (left_id_L ∅ (∪)).
Qed.

Lemma cleanMeta_rangeOrder m :
  cleanMeta m →
  Forall (λ kv : string * string, cleanString kv.1 ∧ cleanString kv.2)
         (rangeOrder m).
Proof.
  intros Hc. apply Forall_forall. intros [k v] Hin.
  rewrite (rangeOrder_perm m) in Hin.
  apply elem_of_map_to_list in Hin. by apply Hc.
Qed.

Lemma bytes2Meta_meta2Bytes m :
  cleanMeta m → bytes2Meta (meta2Bytes m) = m.
Proof.
  intros Hc. unfold bytes2Meta, meta2Bytes.
  rewrite bytes2Meta_lines by by apply cleanMeta_rangeOrder.
  rewrite foldl_insert_union. by rewrite (right_id_L ∅ (∪)).
Qed.

(** C9: for every mapping whose keys and values contain neither '=' nor a
    newline, decoding its encoding gives the mapping back, in whichever order
    [range] visits the entries while encoding:
    [bytes2Meta (meta2Bytes m) = m]. *)
Theorem codec_roundtrip (m : gmap string string) :
  cleanMeta m → bytes2Meta (meta2Bytes m) = m.
Proof. apply bytes2Meta_meta2Bytes. Qed.

End codec_lemmas.

Lemma codec_roundtrip_witness :
  cleanMeta {[ "owner" := "bob" ]} ∧
  bytes2Meta (@meta2Bytes listOrder {[ "owner" := "bob" ]})
  = {[ "owner" := "bob" ]}.
Proof.
  split.
  - apply (bool_decide_unpack _). vm_compute. exact I.
  - apply codec_roundtrip. apply (bool_decide_unpack _). vm_compute. exact I.
Defined.


(** ** Slices *)

Lemma len_nonneg {A} (l : list A) : 0 ≤ len l.
Proof. unfold len. lia. Qed.

Lemma len_nil_iff {A} (l : list A) : len l = 0 ↔ l = [].
Proof.
  unfold len. destruct l; simpl; split; intros; try done; lia.
Qed.

Lemma dropZ_0 {A} (l : list A) : dropZ 0 l = l.
Proof. by destruct l. Qed.

Lemma takeZ_0 {A} (l : list A) : takeZ 0 l = [].
Proof. by destruct l. Qed.

Lemma takeZ_take {A} (n : Z) (l : list A) : takeZ n l = take (Z.to_nat n) l.
Proof.
  revert n. induction l as [|x l IH]; intros n; simpl.
  - by rewrite take_nil.
  - destruct (Z.ltb_spec 0 n).
    + rewrite IH. replace (Z.to_nat n) with (S (Z.to_nat (n - 1))) by lia. done.
    + replace (Z.to_nat n) with O by lia. done.
Qed.

Lemma dropZ_drop {A} (n : Z) (l : list A) : dropZ n l = drop (Z.to_nat n) l.
Proof.
  revert n. induction l as [|x l IH]; intros n; simpl.
  - by rewrite drop_nil.
  - destruct (Z.ltb_spec 0 n).
    + rewrite IH. replace (Z.to_nat n) with (S (Z.to_nat (n - 1))) by lia. done.
    + replace (Z.to_nat n) with O by lia. done.
Qed.

Lemma takeZ_all {A} (n : Z) (l : list A) : len l ≤ n → takeZ n l = l.
Proof.
  intros Hn. rewrite takeZ_take. apply take_ge. unfold len in Hn. lia.
Qed.

Lemma len_dropZ {A} (n : Z) (l : list A) :
  0 ≤ n ≤ len l → len (dropZ n l) = len l - n.
Proof.
  intros Hn. rewrite dropZ_drop. unfold len in *. rewrite length_drop. lia.
Qed.

Lemma wrap64_small z : - 2 ^ 63 ≤ z < 2 ^ 63 → wrap64 z = z.
Proof.
  intros Hz. unfold wrap64. rewrite Z.mod_small by lia. lia.
Qed.

Lemma string_length_app (a b : string) :
  String.length (a +:+ b) = (String.length a + String.length b)%nat.
Proof. induction a as [|c a IH]; simpl; [done|]. by rewrite IH. Qed.

(** A name differs from the name of its sidecar. *)
Lemma meta_name_ne (path : string) : path ≠ path +:+ META_PREFIX.
Proof.
  intros Heq. apply (f_equal String.length) in Heq.
  rewrite string_length_app in Heq. simpl in Heq. lia.
Qed.

(** ** Existence and whole reads on the file backends *)

Lemma Local_IsExist_lookup (fs : FS) path :
  Local.IsExist fs path = true ↔
  ∃ content, fs !! path = Some content ∧ content ≠ [].
Proof.
  unfold Local.IsExist, os_Stat. destruct (fs !! path) as [content|]; simpl.
  - rewrite bool_decide_eq_true. split.
    + intros Hpos. exists content. split; [done|].
      intros ->. unfold len in Hpos. simpl in Hpos. lia.
    + intros (c & [= <-] & Hne). destruct content; [done|].
      unfold len. simpl. lia.
  - split; [done|]. by intros (c & ? & _).
Qed.

Lemma WebDav_IsExist_Local (fs : FS) path :
  WebDav.IsExist fs path = Local.IsExist fs path.
Proof. done. Qed.

Lemma Local_IsExist_false (fs : FS) path :
  fs !! path = None ∨ fs !! path = Some [] → Local.IsExist fs path = false.
Proof.
  intros Hp. apply not_true_is_false. rewrite Local_IsExist_lookup.
  intros (c & Hc & Hne). destruct Hp; congruence.
Qed.

(** C7: on the local and the WebDav backend [IsExist] answers true exactly
    when the platform's stat call succeeds, so the path is present, and the
    size it reports is not zero; an existing file of size zero is answered
    with false. *)
Theorem IsExist_iff_nonzero_size (fs : FS) (path : string) :
  (Local.IsExist fs path = true ↔
     ∃ info, os_Stat fs path = OK info ∧ fi_size info ≠ 0) ∧
  (WebDav.IsExist fs path = true ↔
     ∃ info, client_Stat fs path = OK info ∧ fi_size info ≠ 0) ∧
  (∀ content, fs !! path = Some content → len content = 0 →
     Local.IsExist fs path = false ∧ WebDav.IsExist fs path = false).
Proof.
  assert (Hiff : Local.IsExist fs path = true ↔
            ∃ info, os_Stat fs path = OK info ∧ fi_size info ≠ 0).
  { unfold Local.IsExist, os_Stat.
    destruct (fs !! path) as [content|]; simpl.
    - rewrite bool_decide_eq_true. pose proof (len_nonneg content). split.
      + intros Hpos. eexists. split; [done|]. simpl. lia.
      + intros (info & [= <-] & Hne). simpl in Hne. lia.
    - split; [done|]. by intros (info & ? & _). }
  split; [exact Hiff|]. split; [exact Hiff|].
  intros content Hc Hz. apply len_nil_iff in Hz as ->.
  split; [|change (WebDav.IsExist fs path) with (Local.IsExist fs path)];
    apply Local_IsExist_false; auto.
Qed.

Lemma IsExist_iff_nonzero_size_witness :
  Local.IsExist {[ "a" := [x61]; "e" := [] ]} "a" = true ∧
  WebDav.IsExist {[ "a" := [x61]; "e" := [] ]} "a" = true ∧
  Local.IsExist {[ "a" := [x61]; "e" := [] ]} "e" = false ∧
  WebDav.IsExist {[ "a" := [x61]; "e" := [] ]} "e" = false.
Proof.
  pose proof (IsExist_iff_nonzero_size {[ "a" := [x61]; "e" := [] ]} "a")
    as (Hl & Hw & _).
  pose proof (IsExist_iff_nonzero_size {[ "a" := [x61]; "e" := [] ]} "e")
    as (_ & _ & He).
  split; [|split].
  - apply Hl. eexists. split; [vm_compute; reflexivity|]. simpl. lia.
  - apply Hw. eexists. split; [vm_compute; reflexivity|]. simpl. lia.
  - apply (He []); [vm_compute; reflexivity | reflexivity].
Defined.

(** C10: [FileReader] of the local backend does not look at [offset] and
    [length]: for a file that exists and is not empty it returns the file
    opened at byte 0, from which the whole content is read, whatever the
    two arguments are; for an absent or an empty file it returns a nil
    reader and a nil error. *)
Theorem FileReader_ignores_range (fs : FS) (path : string)
    (offset length : Z) :
  Local.FileReader fs path offset length = Local.FileReader fs path 0 0 ∧
  (∀ content, fs !! path = Some content → content ≠ [] →
     Local.FileReader fs path offset length = (Some (mkFile path 0), None) ∧
     io_ReadAll fs (mkFile path 0) = content) ∧
  (fs !! path = None ∨ fs !! path = Some [] →
     Local.FileReader fs path offset length = (None, None)).
Proof.
  split; [done|]. split.
  - intros content Hc Hne. unfold Local.FileReader.
    assert (Local.IsExist fs path = true) as ->
      by (apply Local_IsExist_lookup; eauto).
    unfold os_Open, io_ReadAll. simpl. rewrite Hc. simpl.
    by rewrite dropZ_0.
  - intros Hp. unfold Local.FileReader.
    by rewrite (Local_IsExist_false _ _ Hp).
Qed.

Lemma FileReader_ignores_range_witness :
  Local.FileReader {[ "a" := [x61; x62] ]} "a" 1 1
    = (Some (mkFile "a" 0), None) ∧
  io_ReadAll {[ "a" := [x61; x62] ]} (mkFile "a" 0) = [x61; x62] ∧
  Local.FileReader {[ "a" := [x61; x62] ]} "b" 1 1 = (None, None).
Proof.
  pose proof (FileReader_ignores_range {[ "a" := [x61; x62] ]} "a" 1 1)
    as (_ & Hin & _).
  pose proof (FileReader_ignores_range {[ "a" := [x61; x62] ]} "b" 1 1)
    as (_ & _ & Hout).
  destruct (Hin [x61; x62]) as [H1 H2];
    [vm_compute; reflexivity | discriminate |].
  split; [exact H1|]. split; [exact H2|].
  apply Hout. left. vm_compute. reflexivity.
Defined.

(** C6, as the claim has it, fails: on the local backend [GetFile] of a path
    that is absent returns no content and no error. *)
Lemma GetFile_absent_counterexample :
  (∅ : FS) !! "missing" = None ∧
  Local.GetFile ∅ "missing" = (None, None) ∧
  ¬ ∃ e, (Local.GetFile ∅ "missing").2 = Some e.
Proof.
  split; [reflexivity|]. split; [reflexivity|].
  intros [e He]. vm_compute in He. discriminate.
Qed.

(** C6, amended: [GetFile] of an absent path returns nil content and a nil
    error on the local, the WebDav and the Empty backend; on the S3 backend,
    when the request itself goes through, it returns the not-found error of
    the service (NoSuchKey). *)
Theorem GetFile_absent (fs : FS) (s : Service) (path : string) :
  (fs !! path = None →
     Local.GetFile fs path = (None, None) ∧
     WebDav.GetFile fs path = (None, None)) ∧
  Empty.GetFile path = (None, None) ∧
  (objects s !! path = None → noFault s →
     (S3.GetFile s path).2 = (None, Some (AwsErr "NoSuchKey"))).
Proof.
  split; [|split; [done|]].
  - intros Hp. unfold Local.GetFile, WebDav.GetFile.
    change (WebDav.IsExist fs path) with (Local.IsExist fs path).
    rewrite Local_IsExist_false by auto. done.
  - intros Hp Hf. unfold S3.GetFile, S3.GetFileWithContext,
      S3.FileReaderWithContext, client_GetObject, request. simpl.
    rewrite Hf. simpl. by rewrite Hp.
Qed.

Lemma GetFile_absent_witness :
  (Local.GetFile ∅ "missing" = (None, None) ∧
   WebDav.GetFile ∅ "missing" = (None, None)) ∧
  (S3.GetFile emptyService "missing").2 = (None, Some (AwsErr "NoSuchKey")).
Proof.
  pose proof (GetFile_absent ∅ emptyService "missing") as (Hf & _ & Hs).
  split.
  - apply Hf. reflexivity.
  - apply Hs; [reflexivity | intros c; reflexivity].
Defined.

(** ** Partial reads *)

Lemma Local_Stat_present (fs : FS) path content :
  fs !! path = Some content →
  ∃ m, Local.Stat fs path
       = (Some (mkFileInfo path (len content) false), Some m, None).
Proof.
  intros Hc. unfold Local.Stat, os_Stat, Local.GetFile, os_ReadFile.
  rewrite Hc.
  destruct (Local.IsExist fs (path +:+ META_PREFIX)) eqn:Hex; simpl.
  - apply Local_IsExist_lookup in Hex as (mb & -> & _). simpl. eauto.
  - eauto.
Qed.

Lemma File_ReadAt_rest (fs : FS) path content offset :
  fs !! path = Some content → 0 ≤ offset ≤ len content →
  File_ReadAt fs (mkFile path 0) (len content - offset) offset
  = (dropZ offset content, (len content - offset, None)).
Proof.
  intros Hc Ho. unfold File_ReadAt. simpl. rewrite Hc. simpl.
  destruct (Z.ltb_spec offset 0); [lia|].
  rewrite takeZ_all by (rewrite len_dropZ by done; lia).
  rewrite len_dropZ by done. rewrite Z.sub_diag, Z.ltb_irrefl.
  unfold zeros. simpl. by rewrite app_nil_r.
Qed.

(** C8, as the claim has it, fails on the local backend: with length 0 the
    result is empty, not the bytes from the offset to the end. *)
Lemma GetFilePartially_counterexample :
  Local.GetFilePartially {[ "p" := list_byte_of_string "hello" ]} "p" 2 0
    = Return (Some [], None) ∧
  dropZ 2 (list_byte_of_string "hello") = list_byte_of_string "llo" ∧
  Local.GetFilePartially {[ "p" := list_byte_of_string "hello" ]} "p" 2 0
    ≠ Return (Some (dropZ 2 (list_byte_of_string "hello")), None).
Proof.
  split; [vm_compute; reflexivity|]. split; [vm_compute; reflexivity|].
  vm_compute. discriminate.
Qed.

(** C8, amended: on an existing object that is not empty, with an offset
    inside the object, [GetFilePartially] returns the bytes from the offset
    to the end of the object when the length is not positive on the S3
    backend, and when the length is negative on the local backend; with
    length 0 the local backend returns an empty result. *)
Theorem GetFilePartially_to_end (fs : FS) (s : Service) (path : string)
    (offset length : Z) :
  (∀ content, fs !! path = Some content → len content < 2 ^ 63 →
     0 ≤ offset < len content → length < 0 →
     Local.GetFilePartially fs path offset length
     = Return (Some (dropZ offset content), None)) ∧
  (∀ content, fs !! path = Some content →
     0 ≤ offset < len content → length = 0 →
     Local.GetFilePartially fs path offset length = Return (Some [], None)) ∧
  (∀ o, objects s !! path = Some o → noFault s →
     0 ≤ offset < len (o_body o) → length ≤ 0 →
     (S3.GetFilePartially s path offset length).2
     = (Some (dropZ offset (o_body o)), None)).
Proof.
  split; [|split].
  - intros content Hc Hsz Ho Hl. unfold Local.GetFilePartially.
    assert (Local.IsExist fs path = true) as ->.
    { apply Local_IsExist_lookup. exists content. split; [done|].
      intros ->. unfold len in Ho. simpl in Ho. lia. }
    simpl. unfold os_Open. rewrite Hc.
    destruct (Z.ltb_spec length 0); [|lia].
    destruct (Local_Stat_present fs path content Hc) as [m ->]. simpl.
    rewrite wrap64_small by lia. unfold Local.readInto.
    destruct (Z.ltb_spec (len content - offset) 0); [lia|].
    rewrite File_ReadAt_rest by (done || lia). done.
  - intros content Hc Ho ->. unfold Local.GetFilePartially.
    assert (Local.IsExist fs path = true) as ->.
    { apply Local_IsExist_lookup. exists content. split; [done|].
      intros ->. unfold len in Ho. simpl in Ho. lia. }
    simpl. unfold os_Open. rewrite Hc. simpl.
    unfold Local.readInto, File_ReadAt. simpl.
    destruct (Z.ltb_spec offset 0); [lia|].
    by rewrite takeZ_0.
  - intros o Ho Hf Hoff Hl. unfold S3.GetFilePartially,
      S3.GetFilePartiallyWithContext, S3.FileReaderWithContext,
      client_GetObject, request. simpl.
    destruct (Z.ltb_spec 0 length); [lia|].
    rewrite Hf. simpl. rewrite Ho. unfold selectRange.
    destruct (Z.ltb_spec offset 0); [lia|].
    destruct (Z.leb_spec (len (o_body o)) offset); [lia|]. done.
Qed.

Lemma GetFilePartially_to_end_witness :
  Local.GetFilePartially {[ "p" := list_byte_of_string "hello" ]} "p" 2 (-1)
    = Return (Some (list_byte_of_string "llo"), None) ∧
  Local.GetFilePartially {[ "p" := list_byte_of_string "hello" ]} "p" 2 0
    = Return (Some [], None) ∧
  (S3.GetFilePartially
     (setObjects emptyService
        {[ "p" := mkObject (list_byte_of_string "hello") ∅ ]}) "p" 2 0).2
    = (Some (list_byte_of_string "llo"), None).
Proof.
  pose proof (GetFilePartially_to_end
                {[ "p" := list_byte_of_string "hello" ]}
                (setObjects emptyService
                   {[ "p" := mkObject (list_byte_of_string "hello") ∅ ]})
                "p" 2 (-1)) as (Hneg & _ & _).
  pose proof (GetFilePartially_to_end
                {[ "p" := list_byte_of_string "hello" ]}
                (setObjects emptyService
                   {[ "p" := mkObject (list_byte_of_string "hello") ∅ ]})
                "p" 2 0) as (_ & Hzero & Hs3).
  split; [|split].
  - apply (Hneg (list_byte_of_string "hello"));
      [vm_compute; reflexivity | vm_compute; reflexivity
       | vm_compute; split; [discriminate | reflexivity] | lia].
  - apply (Hzero (list_byte_of_string "hello"));
      [vm_compute; reflexivity
       | vm_compute; split; [discriminate | reflexivity] | reflexivity].
  - apply (Hs3 (mkObject (list_byte_of_string "hello") ∅));
      [vm_compute; reflexivity | intros c; reflexivity
       | vm_compute; split; [discriminate | reflexivity] | lia].
Defined.

(** ** Creating files with metadata *)

(** C3, as the claim has it, fails on the WebDav backend: a call with
    metadata writes the primary content as well. *)
Lemma CreateFile_counterexample :
  (@WebDav.CreateFile listOrder ∅ "p" (list_byte_of_string "data") None
     (Some {[ "owner" := "bob" ]})).1 !! "p"
  = Some (list_byte_of_string "data").
Proof. vm_compute. reflexivity. Qed.

Section create.
Context `{RangeOrder}.

(** C3, amended: called with a metadata mapping that is not nil, [CreateFile]
    of the local backend writes the sidecar record at [path + ".meta"] and
    nothing else, so the primary content is as it was before the call;
    [CreateFile] of the WebDav backend writes the sidecar record and then
    the primary content at [path]. *)
Theorem CreateFile_with_metadata (fs : FS) (path : string)
    (file : list byte) (ttl : option Z) (m : gmap string string) :
  (Local.CreateFile fs path file ttl (Some m)
     = (<[path +:+ META_PREFIX := meta2Bytes m]> fs, None) ∧
   (Local.CreateFile fs path file ttl (Some m)).1 !! path = fs !! path) ∧
  (WebDav.CreateFile fs path file ttl (Some m)
     = (<[path := file]> (<[path +:+ META_PREFIX := meta2Bytes m]> fs), None) ∧
   (WebDav.CreateFile fs path file ttl (Some m)).1 !! path = Some file).
Proof.
  split; split; try done.
  - simpl. apply lookup_insert_ne. intros Heq. by apply (meta_name_ne path).
  - simpl. apply lookup_insert_eq.
Qed.

(** What the WebDav backend does with the same call: the metadata is read
    back by [Stat]. *)
Lemma WebDav_CreateFile_Stat (fs : FS) (path : string) (file : list byte)
    (ttl : option Z) (m : gmap string string) :
  cleanMeta m →
  let r := WebDav.Stat (WebDav.CreateFile fs path file ttl (Some m)).1 path in
  statErr r = None ∧ statMeta r = m.
Proof.
  intros Hc. simpl. unfold WebDav.Stat, client_Stat, os_Stat.
  rewrite lookup_insert_eq.
  destruct (WebDav.IsExist _ (path +:+ META_PREFIX)) eqn:Hex; simpl.
  - unfold client_Read, os_ReadFile.
    rewrite lookup_insert_ne by apply meta_name_ne.
    rewrite lookup_insert_eq. unfold statErr, statMeta. simpl.
    split; [done|]. by apply bytes2Meta_meta2Bytes.
  - unfold statErr, statMeta. simpl. split; [done|].
    apply not_true_iff_false in Hex.
    change (WebDav.IsExist ?f ?p) with (Local.IsExist f p) in Hex.
    rewrite Local_IsExist_lookup in Hex.
    rewrite lookup_insert_ne in Hex by apply meta_name_ne.
    rewrite lookup_insert_eq in Hex.
    destruct (decide (meta2Bytes m = [])) as [Hnil|Hne].
    + rewrite <- (bytes2Meta_meta2Bytes m Hc), Hnil. done.
    + exfalso. apply Hex. eauto.
Qed.

End create.

(** On the local backend [Stat] of a new path fails after [CreateFile] with
    metadata, whatever the content and the metadata are. *)
Lemma Local_CreateFile_new_path `{RangeOrder} (fs : FS) (path : string)
    (file : list byte) (ttl : option Z) (m : gmap string string) :
  fs !! path = None →
  Local.Stat (Local.CreateFile fs path file ttl (Some m)).1 path
  = (None, None, Some ErrFileNotFound).
Proof.
  intros Hp. unfold Local.Stat, os_Stat. simpl.
  rewrite lookup_insert_ne by (intros Heq; by apply (meta_name_ne path)).
  by rewrite Hp.
Qed.

(** C4 at the failing input: on the local backend, [CreateFile] of a new
    path with content and metadata writes the sidecar only, and [Stat] of
    the path then fails with [ErrFileNotFound]. *)
Theorem Local_CreateFile_then_Stat :
  @Local.CreateFile listOrder ∅ "p" (list_byte_of_string "data") None
    (Some {[ "owner" := "bob" ]})
  = ({[ "p.meta" := list_byte_of_string "owner=bob" ++ [NL] ]}, None) ∧
  Local.Stat
    (@Local.CreateFile listOrder ∅ "p" (list_byte_of_string "data") None
       (Some {[ "owner" := "bob" ]})).1 "p"
  = (None, None, Some ErrFileNotFound).
Proof. split; vm_compute; reflexivity. Qed.

(** ** Copying files with metadata *)

Lemma bytesSplit_pieces sep b :
  Forall (λ w, (sep ∉ w) ∧ ∀ c, c ∈ w → c ∈ b) (bytesSplit sep b).
Proof.
  induction b as [|c b IH]; simpl.
  - constructor; [|done]. split; [apply not_elem_of_nil | done].
  - destruct (decide (c = sep)) as [->|Hne].
    + constructor.
      * split; [apply not_elem_of_nil | intros ? []%elem_of_nil].
      * eapply Forall_impl; [exact IH|]. intros w [Hw Hin].
        split; [done|]. intros c' Hc'. right. by apply Hin.
    + destruct (bytesSplit sep b) as [|w ws].
      { constructor; [|done]. split.
        - intros [?|[]%elem_of_nil]%elem_of_cons. congruence.
        - intros c' [->|[]%elem_of_nil]%elem_of_cons. left. }
      apply Forall_cons in IH as [[Hw Hin] IH]. constructor.
      * split.
        -- intros [?|?]%elem_of_cons; [congruence | done].
        -- intros c' [->|Hc']%elem_of_cons; [left | right; by apply Hin].
      * eapply Forall_impl; [exact IH|]. intros w' [Hw' Hin'].
        split; [done|]. intros c' Hc'. right. by apply Hin'.
Qed.

Lemma bytes2MetaLine_clean acc line :
  cleanMeta acc → NL ∉ line → cleanMeta (bytes2MetaLine acc line).
Proof.
  intros Hacc Hnl. unfold bytes2MetaLine.
  destruct (decide _); [done|]. simpl.
  destruct (decide _); [done|].
  pose proof (bytesSplit_pieces EQ line) as Hp.
  destruct (bytesSplit EQ line) as [|k [|v [|? ?]]]; try done.
  apply Forall_cons in Hp as [[Hk Hkin] Hp].
  apply Forall_cons in Hp as [[Hv Hvin] _].
  apply map_Forall_insert_2; [|done].
  unfold cleanString. rewrite !list_byte_of_string_of_list_byte.
  repeat split; try done; intros Hin; apply Hnl; auto.
Qed.



Lemma bytes2Meta_nil : bytes2Meta [] = ∅.
Proof. done. Qed.

(** ** Metadata as header fields *)

Ltac each_byte c := destruct c as [[] [] [] [] [] [] [] []].

Lemma canonByte_lower u c : canonByte u (toLowerByte c) = canonByte u c.
Proof. each_byte c; destruct u; reflexivity. Qed.

Lemma canonByte_idem u c : canonByte u (canonByte u c) = canonByte u c.
Proof. each_byte c; destruct u; reflexivity. Qed.

Lemma hyphen_canonByte u c :
  Ascii.eqb (canonByte u c) "-" = Ascii.eqb c "-".
Proof. each_byte c; destruct u; reflexivity. Qed.

Lemma hyphen_lower c : Ascii.eqb (toLowerByte c) "-" = Ascii.eqb c "-".
Proof. each_byte c; reflexivity. Qed.

Lemma valid_canonByte u c :
  validHeaderFieldByte (canonByte u c) = validHeaderFieldByte c.
Proof. each_byte c; destruct u; reflexivity. Qed.

Lemma valid_lower c :
  validHeaderFieldByte (toLowerByte c) = validHeaderFieldByte c.
Proof. each_byte c; reflexivity. Qed.

Lemma token_not_space c :
  validHeaderFieldByte c = true → isSpaceByte c = false.
Proof. each_byte c; vm_compute; congruence. Qed.

Lemma print_validValue c : isPrintByte c = true → validValueByte c = true.
Proof. each_byte c; vm_compute; congruence. Qed.

Lemma canonBytes_lower s : ∀ u, canonBytes u (ToLower s) = canonBytes u s.
Proof.
  induction s as [|c s IH]; intros u; [done|].
  cbn [ToLower mapBytes canonBytes]. rewrite canonByte_lower.
  f_equal. apply IH.
Qed.

Lemma canonBytes_idem s : ∀ u, canonBytes u (canonBytes u s) = canonBytes u s.
Proof.
  induction s as [|c s IH]; intros u; [done|].
  cbn [canonBytes]. rewrite canonByte_idem. f_equal.
  rewrite hyphen_canonByte. apply IH.
Qed.

Lemma allBytes_canonBytes s : ∀ u,
  allBytes validHeaderFieldByte (canonBytes u s)
  = allBytes validHeaderFieldByte s.
Proof.
  induction s as [|c s IH]; intros u; [done|].
  cbn [canonBytes allBytes]. by rewrite valid_canonByte, IH.
Qed.

Lemma allBytes_ToLower s :
  allBytes validHeaderFieldByte (ToLower s) = allBytes validHeaderFieldByte s.
Proof.
  induction s as [|c s IH]; [done|].
  cbn [ToLower mapBytes allBytes]. fold (ToLower s).
  by rewrite valid_lower, IH.
Qed.

Lemma allBytes_impl (p q : ascii → bool) s :
  (∀ c, p c = true → q c = true) → allBytes p s = true → allBytes q s = true.
Proof.
  intros Hpq. induction s as [|c s IH]; [done|]. cbn [allBytes].
  rewrite !andb_true_iff. intros [? ?]. auto.
Qed.

Lemma TrimSpace_token s :
  allBytes validHeaderFieldByte s = true → TrimSpace s = s.
Proof.
  intros Hs. unfold TrimSpace.
  assert (Hl : trimLeft s = s).
  { destruct s as [|c s]; [done|]. cbn [allBytes] in Hs.
    apply andb_true_iff in Hs as [Hc _]. cbn [trimLeft].
    by rewrite (token_not_space c Hc). }
  rewrite Hl. clear Hl. induction s as [|c s IH]; [done|].
  cbn [allBytes] in Hs. apply andb_true_iff in Hs as [Hc Hs].
  cbn [trimRight]. rewrite (IH Hs), (token_not_space c Hc).
  by destruct s.
Qed.

Lemma substring_all s : String.substring 0 (String.length s) s = s.
Proof. induction s as [|c s IH]; [done|]. simpl. by rewrite IH. Qed.

Lemma dropPrefix_amzMeta x : dropPrefix ("X-Amz-Meta-" +:+ x) = x.
Proof.
  unfold dropPrefix.
  change (String.substring 0 (String.length x - 0) x = x).
  rewrite Nat.sub_0_r. apply substring_all.
Qed.

(** The name of the field of a key that is a token, and the key under which
    the client reads it back. *)
Lemma fieldName_token k :
  allBytes validHeaderFieldByte k = true →
  CanonicalMIMEHeaderKey (amzMeta +:+ k) = "X-Amz-Meta-" +:+ canonKey k.
Proof.
  intros Hk. unfold CanonicalMIMEHeaderKey.
  assert (allBytes validHeaderFieldByte (amzMeta +:+ k) = true) as ->; [|done].
  exact Hk.
Qed.

Lemma fieldName_other k :
  allBytes validHeaderFieldByte k = false →
  ValidHeaderFieldName (CanonicalMIMEHeaderKey (amzMeta +:+ k)) = false.
Proof.
  intros Hk. unfold CanonicalMIMEHeaderKey.
  assert (Ha : allBytes validHeaderFieldByte (amzMeta +:+ k) = false)
    by exact Hk.
  rewrite Ha. unfold ValidHeaderFieldName. rewrite Ha. apply andb_false_r.
Qed.

Lemma length_mapBytes f s : String.length (mapBytes f s) = String.length s.
Proof. induction s as [|c s IH]; [done|]. cbn. by rewrite IH. Qed.

Lemma length_canonBytes s : ∀ u,
  String.length (canonBytes u s) = String.length s.
Proof. induction s as [|c s IH]; intros u; [done|]. cbn. by rewrite IH. Qed.

Lemma sum_list_with_fmap {A B} (f : B → nat) (g : A → B) l :
  sum_list_with f (g <$> l) = sum_list_with (f ∘ g) l.
Proof. induction l as [|x l IH]; [done|]. cbn. by rewrite IH. Qed.

Lemma sum_list_with_ext {A} (f g : A → nat) l :
  Forall (λ x, f x = g x) l → sum_list_with f l = sum_list_with g l.
Proof. induction 1 as [|x l Hx _ IH]; [done|]. cbn. by rewrite Hx, IH. Qed.

Lemma metadataSize_empty : metadataSize ∅ = 0%nat.
Proof. unfold metadataSize. by rewrite map_to_list_empty. Qed.

Lemma canonKey_ToLower_canonKey k :
  canonKey (ToLower (canonKey k)) = canonKey k.
Proof. unfold canonKey. by rewrite canonBytes_lower, canonBytes_idem. Qed.

Lemma userMetadata_distinct (fields : list (string * string)) :
  NoDup ((λ f, ToLower (dropPrefix f.1)) <$> fields) →
  userMetadata fields
  = list_to_map ((λ f, (ToLower (dropPrefix f.1), f.2)) <$> fields).
Proof.
  unfold userMetadata.
  induction fields as [|f fields IH] using rev_ind; intros Hnd; [done|].
  rewrite fmap_app in Hnd. apply NoDup_app in Hnd as (Hnd & Hnew & _).
  rewrite foldl_app, fmap_app, list_to_map_app. cbn [foldl fmap list_fmap].
  rewrite IH by done. unfold addField at 1.
  assert (Hnone : (list_to_map
                     ((λ f0, (ToLower (dropPrefix f0.1), f0.2)) <$> fields)
                   : gmap string string) !! ToLower (dropPrefix f.1) = None).
  { apply not_elem_of_list_to_map. rewrite <- list_fmap_compose.
    intros Hin. apply (Hnew _ Hin). cbn. left. }
  rewrite Hnone. cbn [list_to_map foldr]. cbn.
  rewrite insert_empty. by rewrite insert_union_singleton_r.
Qed.

Section headers.
Context `{RangeOrder}.

Lemma sendable_entries m :
  sendable m →
  Forall (λ kv, headerToken kv.1 ∧ plainValue kv.2) (rangeOrder m) ∧
  NoDup (canonKey <$> (rangeOrder m).*1).
Proof.
  intros (Hall & Hinj & _). split.
  - rewrite rangeOrder_perm. apply Forall_forall. intros [k v] Hin.
    apply elem_of_map_to_list in Hin. by apply (Hall k v).
  - rewrite rangeOrder_perm. apply NoDup_fmap_2_strong.
    + intros k1 k2 H1 H2 Heq. apply Hinj; [| |done].
      * apply list_elem_of_fmap in H1 as ([? v] & -> & Hin).
        apply elem_of_map_to_list in Hin. eauto.
      * apply list_elem_of_fmap in H2 as ([? v] & -> & Hin).
        apply elem_of_map_to_list in Hin. eauto.
    + apply NoDup_fst_map_to_list.
Qed.

(** What is sent for a mapping that can be sent, and what comes back. *)
Lemma sendMetadata_sendable m :
  sendable m →
  ∃ received, sendMetadata m = Some received ∧
    unmarshalHeaderMap received = canonKeys m ∧
    (metadataSize received ≤ maxMetadataSize)%nat.
Proof.
  intros Hs. destruct (sendable_entries m Hs) as [Hall Hnd].
  set (g := λ kv : string * string, (ToLower (canonKey kv.1), kv.2)).
  set (c := λ kv : string * string, (canonKey kv.1, kv.2)).
  assert (Hbuild : buildHeaderMap m
                   = (λ kv, ("X-Amz-Meta-" +:+ canonKey kv.1, kv.2))
                       <$> rangeOrder m).
  { unfold buildHeaderMap. apply Forall_fmap_ext.
    eapply Forall_impl; [exact Hall|]. intros [k v] [[_ Hk] (_ & _ & Hv)].
    cbn [fst snd] in *. by rewrite (TrimSpace_token k Hk), Hv,
      (fieldName_token k Hk). }
  assert (Hinj : NoDup ((g <$> rangeOrder m).*1)).
  { rewrite <- list_fmap_compose.
    change (NoDup ((λ kv : string * string, ToLower (canonKey kv.1))
                     <$> rangeOrder m)).
    apply (NoDup_fmap_1 canonKey). rewrite <- list_fmap_compose.
    erewrite (list_fmap_ext _ (λ kv : string * string, canonKey kv.1));
      [by rewrite <- (list_fmap_compose fst canonKey) in Hnd|].
    intros i [k v] _. cbn. apply canonKey_ToLower_canonKey. }
  exists (list_to_map (g <$> rangeOrder m)). split; [|split].
  3:{ destruct Hs as (_ & _ & Hsize). unfold metadataSize in *.
      rewrite (map_to_list_to_map (g <$> rangeOrder m) Hinj).
      rewrite sum_list_with_fmap, rangeOrder_perm.
      erewrite sum_list_with_ext; [exact Hsize|].
      apply Forall_forall. intros [k v] _. unfold g, canonKey, ToLower.
      cbn [compose fst snd]. by rewrite length_mapBytes, length_canonBytes. }
  - unfold sendMetadata. rewrite Hbuild.
    assert (validHeaders ((λ kv, ("X-Amz-Meta-" +:+ canonKey kv.1, kv.2))
                            <$> rangeOrder m) = true) as ->.
    { unfold validHeaders. apply forallb_forall. intros f Hin.
      apply in_map_iff in Hin as ([k v] & <- & Hin).
      apply list_elem_of_In in Hin.
      rewrite Forall_forall in Hall. destruct (Hall _ Hin) as [[_ Hk] (_ & Hp & _)].
      cbn [fst snd] in *. apply andb_true_iff. split.
      - unfold ValidHeaderFieldName.
        change (allBytes validHeaderFieldByte (canonKey k) = true).
        unfold canonKey. by rewrite allBytes_canonBytes.
      - eapply allBytes_impl; [apply print_validValue | done]. }
    f_equal. rewrite userMetadata_distinct.
    + rewrite <- list_fmap_compose. f_equal. apply list_fmap_ext.
      intros i [k v] _. cbn [compose fst snd]. by rewrite dropPrefix_amzMeta.
    + rewrite <- list_fmap_compose.
      erewrite list_fmap_ext; [by rewrite <- list_fmap_compose in Hinj|].
      intros i [k v] _. cbn [compose fst snd]. by rewrite dropPrefix_amzMeta.
  - unfold unmarshalHeaderMap, canonKeys.
    pose proof (map_to_list_to_map (g <$> rangeOrder m) Hinj) as Hperm.
    assert (Hc : NoDup ((c <$> rangeOrder m).*1)).
    { rewrite <- list_fmap_compose.
      replace (fst ∘ c <$> rangeOrder m)
        with (canonKey <$> (rangeOrder m).*1); [done|].
      rewrite <- list_fmap_compose. apply list_fmap_ext. by intros i [k v] _. }
    assert (Hhg : (λ kv : string * string,
                     (dropPrefix (CanonicalMIMEHeaderKey (amzMeta +:+ kv.1)),
                      kv.2)) <$> (g <$> rangeOrder m)
                  = c <$> rangeOrder m).
    { rewrite <- list_fmap_compose. apply Forall_fmap_ext.
      eapply Forall_impl; [exact Hall|]. intros [k v] [[_ Hk] _].
      cbn [compose fst snd g c] in *.
      rewrite fieldName_token, dropPrefix_amzMeta.
      - by rewrite canonKey_ToLower_canonKey.
      - unfold canonKey. by rewrite allBytes_ToLower, allBytes_canonBytes. }
    transitivity (list_to_map (c <$> rangeOrder m) : gmap string string).
    + apply list_to_map_proper.
      * by rewrite Hperm, Hhg.
      * by rewrite Hperm, Hhg.
    + apply list_to_map_proper; [done|]. by rewrite rangeOrder_perm.
Qed.

End headers.




(** The entries of a mapping read back: each one under the canonical case
    of its key. *)
Lemma canonKeys_lookup m k' v :
  distinctKeys m →
  canonKeys m !! k' = Some v ↔ ∃ k, k' = canonKey k ∧ m !! k = Some v.
Proof.
  intros Hinj. unfold canonKeys. rewrite <- elem_of_list_to_map.
  - rewrite list_elem_of_fmap. split.
    + intros ([k w] & [= -> ->] & Hin). apply elem_of_map_to_list in Hin.
      eauto.
    + intros (k & -> & Hk). exists (k, v). split; [done|].
      by apply elem_of_map_to_list.
  - rewrite <- list_fmap_compose.
    replace (fst ∘ (λ kv : string * string, (canonKey kv.1, kv.2))
               <$> map_to_list m)
      with (canonKey <$> (map_to_list m).*1).
    2:{ rewrite <- list_fmap_compose. apply list_fmap_ext.
        by intros i [k w] _. }
    apply NoDup_fmap_2_strong; [|apply NoDup_fst_map_to_list].
    intros k1 k2 H1 H2 Heq. apply Hinj; [| |done].
    + apply list_elem_of_fmap in H1 as ([? w] & -> & Hin).
      apply elem_of_map_to_list in Hin. eauto.
    + apply list_elem_of_fmap in H2 as ([? w] & -> & Hin).
      apply elem_of_map_to_list in Hin. eauto.
Qed.

(** A key that is no token is refused before anything is sent. *)
Lemma sendMetadata_refused `{RangeOrder} m k v :
  m !! k = Some v →
  allBytes validHeaderFieldByte (TrimSpace k) = false →
  sendMetadata m = None.
Proof.
  intros Hk Hbad. unfold sendMetadata.
  destruct (validHeaders (buildHeaderMap m)) eqn:Hv; [|done].
  exfalso. unfold validHeaders in Hv. rewrite forallb_forall in Hv.
  specialize (Hv (CanonicalMIMEHeaderKey (amzMeta +:+ TrimSpace k),
                  TrimSpace v)).
  cbn [fst snd] in Hv. rewrite (fieldName_other _ Hbad) in Hv.
  cbn [andb] in Hv. enough (false = true) by done. apply Hv. clear Hv.
  apply list_elem_of_In. unfold buildHeaderMap.
  apply list_elem_of_fmap. exists (k, v). split; [done|].
  rewrite rangeOrder_perm. by apply elem_of_map_to_list.
Qed.

Section copy.
Context `{RangeOrder}.



(** A source whose [Stat] reports a mapping that is not empty has a sidecar
    that is not empty. *)
Lemma Local_Stat_sidecar (fs : FS) src (M : gmap string string) :
  statErr (Local.Stat fs src) = None →
  statMeta (Local.Stat fs src) = M → M ≠ ∅ →
  ∃ content mb, fs !! src = Some content ∧
    fs !! (src +:+ META_PREFIX) = Some mb ∧ mb ≠ [] ∧ M = bytes2Meta mb.
Proof.
  unfold Local.Stat, os_Stat, Local.GetFile.
  destruct (fs !! src) as [content|] eqn:Hc; [|done].
  destruct (Local.IsExist fs (src +:+ META_PREFIX)) eqn:Hex; simpl.
  - apply Local_IsExist_lookup in Hex as (mb & Hmb & Hne).
    unfold os_ReadFile. rewrite Hmb. unfold statMeta. simpl.
    intros _ <- _. eauto 10.
  - unfold statMeta. simpl. intros _ <- Hne. done.
Qed.






Lemma S3_Stat_eq (s : Service) path :
  noFault s →
  (S3.Stat s path).2
  = match objects s !! path with
    | Some o => (Some (mkFileInfo path (len (o_body o)) false),
                 Some (unmarshalHeaderMap (o_meta o)), None)
    | None => (None, None, Some (AwsErr "NotFound"))
    end.
Proof.
  intros Hf. unfold S3.Stat, S3.StatWithContext, client_HeadObject, request.
  cbn [ctx_done Background fault logCall objects]. rewrite Hf.
  by destruct (objects s !! path).
Qed.



End copy.


(** The WebDav backend drops the override when the source has no sidecar;
    the local backend writes it. *)
Lemma WebDav_CopyFile_without_sidecar :
  statMeta
    (WebDav.Stat
       (@WebDav.CopyFile listOrder {[ "src" := list_byte_of_string "data" ]}
          "src" "dst" None (Some {[ "owner" := "alice" ]})).1 "dst") = ∅ ∧
  statMeta
    (Local.Stat
       (@Local.CopyFile listOrder {[ "src" := list_byte_of_string "data" ]}
          "src" "dst" None (Some {[ "owner" := "alice" ]})).1 "dst")
  = {[ "owner" := "alice" ]}.
Proof. split; vm_compute; reflexivity. Qed.

(** On the local backend a copy without metadata on either side leaves an
    old sidecar of the destination in place. *)
Lemma Local_CopyFile_old_sidecar :
  statMeta
    (Local.Stat
       (@Local.CopyFile listOrder
          {[ "src" := list_byte_of_string "data";
             "dst.meta" := list_byte_of_string "owner=eve" ++ [NL] ]}
          "src" "dst" None None).1 "dst")
  = {[ "owner" := "eve" ]}.
Proof. vm_compute. reflexivity. Qed.

(** On the S3 backend an override whose key is not in canonical case does
    not replace the entry of the source: [Stat] reports the key of the
    source as ["Owner"], the override ["owner"] is sent under the same field
    name, and the destination has no key ["owner"]. *)
Lemma S3_CopyFile_lowercase_override :
  statMeta (S3.Stat bobBucket "src").2
  = {[ "Owner" := "bob"; "Team" := "x" ]} ∧
  (@S3.CopyFile listOrder bobBucket "src" "dst" None
     (Some {[ "owner" := "alice" ]})).2 = None ∧
  statMeta
    (S3.Stat
       (@S3.CopyFile listOrder bobBucket "src" "dst" None
          (Some {[ "owner" := "alice" ]})).1 "dst").2 !! "owner" = None ∧
  statMeta
    (S3.Stat
       (@S3.CopyFile listOrder bobBucket "src" "dst" None
          (Some {[ "owner" := "alice" ]})).1 "dst").2
  ≠ {[ "owner" := "alice" ]} ∪ {[ "Owner" := "bob"; "Team" := "x" ]}.
Proof.
  split; [vm_compute; reflexivity|]. split; [vm_compute; reflexivity|].
  split; [vm_compute; reflexivity|].
  intros Heq. apply (f_equal (λ m : gmap string string, m !! "owner")) in Heq.
  vm_compute in Heq. discriminate.
Qed.

(** On the S3 backend the white space around a value is cut off, and
    metadata of more than 2 KB are refused. *)
Lemma S3_CopyFile_value_limits :
  statMeta
    (S3.Stat
       (@S3.CopyFile listOrder bobBucket "src" "dst" None
          (Some {[ "Owner" := " alice " ]})).1 "dst").2
  = {[ "Owner" := "alice"; "Team" := "x" ]} ∧
  (@S3.CopyFile listOrder bobBucket "src" "dst" None
     (Some {[ "Owner" := string_of_list_ascii (replicate 2049 "a"%char) ]})).2
  = Some (AwsErr "MetadataTooLarge").
Proof. split; vm_compute; reflexivity. Qed.

(** On the local backend a copy onto the sidecar of the source loses the
    metadata of the source: the sidecar is overwritten before it is read. *)
Lemma Local_CopyFile_onto_sidecar :
  (@Local.CopyFile listOrder bobFiles "src" "src.meta" None
     (Some {[ "owner" := "alice" ]})).2 = None ∧
  statMeta
    (Local.Stat
       (@Local.CopyFile listOrder bobFiles "src" "src.meta" None
          (Some {[ "owner" := "alice" ]})).1 "src.meta")
  = {[ "owner" := "alice" ]}.
Proof. split; vm_compute; reflexivity. Qed.

(** On the WebDav backend a copy of a file onto itself is refused, after the
    sidecar has been written again. *)
Lemma WebDav_CopyFile_self :
  (@WebDav.CopyFile listOrder bobFiles "src" "src" None
     (Some {[ "owner" := "alice" ]})).2 = Some (ErrOther "403 Forbidden").
Proof. vm_compute. reflexivity. Qed.


(** ** Streaming into the bucket *)

Lemma takeZ_dropZ {A} (n : Z) (l : list A) : takeZ n l ++ dropZ n l = l.
Proof. rewrite takeZ_take, dropZ_drop. apply take_drop. Qed.

Lemma length_dropZ_le {A} (n : Z) (l : list A) :
  (length (dropZ n l) ≤ length l)%nat.
Proof. rewrite dropZ_drop, length_drop. lia. Qed.

Lemma len_takeZ {A} (n : Z) (l : list A) :
  0 ≤ n → len (takeZ n l) = Z.min n (len l).
Proof.
  intros Hn. rewrite takeZ_take. unfold len. rewrite length_take. lia.
Qed.

Lemma dropZ_nil_iff {A} (n : Z) (l : list A) :
  0 ≤ n → dropZ n l = [] ↔ len l ≤ n.
Proof.
  intros Hn. rewrite dropZ_drop. unfold len. split.
  - intros Hd. apply (f_equal length) in Hd. rewrite length_drop in Hd.
    simpl in Hd. lia.
  - intros Hl. apply drop_ge. lia.
Qed.

Lemma chunksOf_fuel (n : Z) (fuel1 fuel2 : nat) (d : list byte) :
  0 < n → (length d ≤ fuel1)%nat → (length d ≤ fuel2)%nat →
  chunksOf fuel1 n d = chunksOf fuel2 n d.
Proof.
  intros Hn. revert fuel2 d.
  induction fuel1 as [|fuel1 IH]; intros fuel2 d H1 H2.
  - destruct d; [|simpl in H1; lia]. by destruct fuel2.
  - destruct d as [|b d]; [by destruct fuel2|].
    destruct fuel2 as [|fuel2]; [simpl in H2; lia|].
    cbn [chunksOf]. f_equal. simpl in H1, H2.
    assert (length (dropZ n (b :: d)) ≤ length d)%nat.
    { cbn [dropZ]. destruct (Z.ltb_spec 0 n); [|lia].
      apply length_dropZ_le. }
    apply IH; lia.
Qed.

Lemma chunks_nil (n : Z) : chunks n [] = [].
Proof. done. Qed.

Lemma chunks_cons (n : Z) (d : list byte) :
  0 < n → d ≠ [] → chunks n d = takeZ n d :: chunks n (dropZ n d).
Proof.
  intros Hn Hd. unfold chunks. destruct d as [|b d]; [done|].
  cbn [length chunksOf]. f_equal. apply chunksOf_fuel; [done| |done].
  cbn [dropZ]. destruct (Z.ltb_spec 0 n); [|lia]. apply length_dropZ_le.
Qed.

(** Induction on a slice by cutting [n] bytes off its front. *)
Lemma chunk_ind (n : Z) (P : list byte → Prop) :
  0 < n → P [] → (∀ d, d ≠ [] → P (dropZ n d) → P d) → ∀ d, P d.
Proof.
  intros Hn Hnil Hstep d.
  assert (Hgen : ∀ fuel d, (length d ≤ fuel)%nat → P d).
  { induction fuel as [|fuel IH]; intros d' Hl.
    - destruct d'; [done|simpl in Hl; lia].
    - destruct d' as [|b d']; [done|]. apply Hstep; [done|]. apply IH.
      cbn [dropZ]. destruct (Z.ltb_spec 0 n); [|lia].
      pose proof (length_dropZ_le (n - 1) d'). simpl in Hl. lia. }
  by apply (Hgen (length d)).
Qed.

Lemma concat_chunks (n : Z) (d : list byte) : 0 < n → concat (chunks n d) = d.
Proof.
  intros Hn. revert d. apply (chunk_ind n); [done|done|]. intros d Hd IH.
  rewrite chunks_cons by done. simpl. rewrite IH. apply takeZ_dropZ.
Qed.

Lemma chunks_eq_nil (n : Z) (d : list byte) :
  0 < n → chunks n d = [] → d = [].
Proof.
  intros Hn Hc. destruct (decide (d = [])) as [|Hd]; [done|].
  by rewrite chunks_cons in Hc.
Qed.

Lemma bigEnough_chunks (n : Z) (d : list byte) :
  0 < n → minPartSize ≤ n → bigEnough (chunks n d) = true.
Proof.
  intros Hn Hmin. revert d. apply (chunk_ind n); [done|done|].
  intros d Hd IH. rewrite chunks_cons by done.
  destruct (chunks n (dropZ n d)) as [|c cs] eqn:Hrest; [done|].
  change (bigEnough (takeZ n d :: c :: cs))
    with ((minPartSize <=? len (takeZ n d)) && bigEnough (c :: cs)).
  rewrite IH, andb_true_r. apply Z.leb_le.
  assert (dropZ n d ≠ []) as Hne.
  { intros Hnil. rewrite Hnil in Hrest. done. }
  rewrite dropZ_nil_iff in Hne by lia. rewrite len_takeZ by lia. lia.
Qed.

(** The number of pieces is the size divided by [n], rounded up. *)
Lemma len_chunks (n : Z) (d : list byte) :
  0 < n → len (chunks n d) = (len d + n - 1) / n.
Proof.
  intros Hn. revert d. apply (chunk_ind n); [done| |intros d Hd IH].
  - unfold len. simpl. symmetry. apply Z.div_small. lia.
  - rewrite chunks_cons by done.
    change (len (takeZ n d :: chunks n (dropZ n d)))
      with (Z.of_nat (S (length (chunks n (dropZ n d))))).
    rewrite Nat2Z.inj_succ. fold (len (chunks n (dropZ n d))). rewrite IH.
    assert (0 < len d).
    { destruct d; [done|]. unfold len. simpl. lia. }
    destruct (Z.le_gt_cases (len d) n) as [Hle|Hgt].
    + assert (dropZ n d = []) as -> by (apply dropZ_nil_iff; lia).
      replace (len (@nil byte)) with 0 by done.
      rewrite (Z.div_small (0 + n - 1)) by lia.
      change (Z.succ 0) with 1.
      apply (Z.div_unique _ _ 1 (len d - 1)); lia.
    + rewrite len_dropZ by lia.
      replace (len d + n - 1) with ((len d - n + n - 1) + 1 * n) by lia.
      rewrite Z.div_add by lia. lia.
Qed.

Lemma ascending_partTags tag pn cs : ascending (partTags tag pn cs) = true.
Proof.
  revert pn. induction cs as [|c cs IH]; intros pn; [done|].
  cbn [partTags]. specialize (IH (pn + 1)).
  destruct cs as [|c' cs]; [done|].
  cbn [partTags ascending PartNumber] in *. rewrite IH, andb_true_r.
  apply Z.ltb_lt. lia.
Qed.

Lemma partsMap_lookup_lt have tag pn cs k :
  k < pn → partsMap have tag pn cs !! k = have !! k.
Proof.
  revert have pn. induction cs as [|c cs IH]; intros have pn Hk; [done|].
  cbn [partsMap]. rewrite IH by lia. apply lookup_insert_ne. lia.
Qed.

Lemma partBodies_partsMap have tag pn cs :
  partBodies (partsMap have tag pn cs) (partTags tag pn cs) = Some cs.
Proof.
  revert have pn. induction cs as [|c cs IH]; intros have pn; [done|].
  cbn [partsMap partTags partBodies PartNumber ETag].
  rewrite partsMap_lookup_lt by lia. rewrite lookup_insert_eq.
  destruct (decide (tag c = tag c)); [|done]. by rewrite IH.
Qed.

Lemma partTags_length tag pn cs : length (partTags tag pn cs) = length cs.
Proof.
  revert pn. induction cs as [|c cs IH]; intros pn; [done|].
  simpl. by rewrite IH.
Qed.

Lemma len_cons {A} (x : A) (l : list A) : len (x :: l) = 1 + len l.
Proof. unfold len. simpl. lia. Qed.

Lemma UploadPart_ok ctx s id pn c u :
  ctx_done ctx = false → noFault s → uploads s !! id = Some u →
  1 ≤ pn ≤ maxPartNumber →
  client_UploadPart ctx s id pn c
  = (setUploads (logCall s (UploadPart id pn c))
       (<[id := mkUpload (u_key u) (<[pn := (etagOf s c, c)]> (u_parts u))]>
          (uploads s)),
     OK (etagOf s c)).
Proof.
  intros Hctx Hf Hu Hpn. unfold client_UploadPart, request.
  rewrite Hctx. cbn [fault logCall uploads]. rewrite Hf, Hu.
  destruct (Z.ltb_spec pn 1); [lia|].
  destruct (Z.ltb_spec maxPartNumber pn); [lia|]. done.
Qed.

Lemma afterParts_spec id cs : ∀ s pn u,
  noFault s → uploads s !! id = Some u →
  1 ≤ pn → pn + len cs ≤ maxPartNumber + 1 →
  objects (afterParts s id pn cs) = objects s ∧
  uploads (afterParts s id pn cs)
  = <[id := mkUpload (u_key u) (partsMap (u_parts u) (etagOf s) pn cs)]>
      (uploads s) ∧
  calls (afterParts s id pn cs) = calls s ++ partCalls id pn cs ∧
  etagOf (afterParts s id pn cs) = etagOf s ∧
  fault (afterParts s id pn cs) = fault s.
Proof.
  induction cs as [|c cs IH]; intros s pn u Hf Hu Hpn Hmax.
  - cbn [afterParts partsMap partCalls]. rewrite app_nil_r.
    repeat split; try done. destruct u. symmetry. by apply insert_id.
  - rewrite len_cons in Hmax. pose proof (len_nonneg cs).
    cbn [afterParts].
    rewrite (UploadPart_ok Background s id pn c u) by (done || lia).
    cbn [fst].
    set (u1 := mkUpload (u_key u) (<[pn := (etagOf s c, c)]> (u_parts u))).
    set (s1 := setUploads (logCall s (UploadPart id pn c))
                 (<[id := u1]> (uploads s))).
    destruct (IH s1 (pn + 1) u1) as (Ho & Hup & Hc & He & Hfa);
      [done | apply lookup_insert_eq | lia | lia |].
    rewrite Ho, Hup, Hc, He, Hfa. subst s1 u1.
    cbn [objects uploads calls etagOf fault setUploads logCall u_key u_parts
         partsMap partCalls].
    rewrite insert_insert_eq, <- app_assoc. done.
Qed.

Lemma Read_bytesReader_nil n :
  Read (bytesReader []) n = ([], Some EOF, bytesReader []).
Proof. done. Qed.

Lemma Read_bytesReader_cons n d :
  d ≠ [] →
  Read (bytesReader d) n = (takeZ n d, None, bytesReader (dropZ n d)).
Proof. by destruct d. Qed.

Lemma fills_bytesReader (n : Z) (d : list byte) :
  0 < n → fills n (bytesReader d) d.
Proof.
  intros Hn. revert d. apply (chunk_ind n); [done| |].
  - eapply fills_end; [apply Read_bytesReader_nil | by right].
  - intros d Hd IH.
    eapply fills_more; [done | by apply Read_bytesReader_cons | by left | done].
Qed.

(** The loop on a source that fills the buffer and a service that answers:
    one part for each piece of the data, then [break]. *)
Lemma uploadLoop_fills ctx path resp : ∀ fuel stream d s pn parts u,
  fills S3.bufSize stream d →
  ctx_done ctx = false → noFault s →
  uploads s !! UploadId resp = Some u →
  1 ≤ pn → pn + len (chunks S3.bufSize d) ≤ maxPartNumber + 1 →
  (length (chunks S3.bufSize d) < fuel)%nat →
  ∃ stream',
    S3.uploadLoop fuel ctx s stream path resp pn parts
    = Some (afterParts s (UploadId resp) pn (chunks S3.bufSize d), stream',
            S3.Broke
              (parts ++ partTags (etagOf s) pn (chunks S3.bufSize d))).
Proof.
  assert (Hbuf : 0 < S3.bufSize) by done.
  induction fuel as [|fuel IH];
    intros stream d s pn parts u Hfill Hctx Hf Hu Hpn Hmax Hfuel; [lia|].
  inversion Hfill as [? err stream' Hread Herr | ? ? err stream' Hd Hread Herr Hrest];
    subst.
  - exists stream'. cbn [S3.uploadLoop]. rewrite Hread.
    rewrite bool_decide_eq_false_2 by (intros [? ?]; destruct Herr; done).
    rewrite chunks_nil. cbn [afterParts partTags]. by rewrite app_nil_r.
  - rewrite chunks_cons in Hmax, Hfuel |- * by done.
    rewrite len_cons in Hmax. cbn [length] in Hfuel.
    pose proof (len_nonneg (chunks S3.bufSize (dropZ S3.bufSize d))).
    assert (0 < len d).
    { destruct d; [done|]. rewrite len_cons. pose proof (len_nonneg d). lia. }
    edestruct (IH stream' (dropZ S3.bufSize d)
                 (setUploads (logCall s (UploadPart (UploadId resp) pn
                                           (takeZ S3.bufSize d)))
                    (<[UploadId resp :=
                         mkUpload (u_key u)
                           (<[pn := (etagOf s (takeZ S3.bufSize d),
                                     takeZ S3.bufSize d)]> (u_parts u))]>
                       (uploads s)))
                 (pn + 1)
                 (parts ++ [mkCompletedPart (etagOf s (takeZ S3.bufSize d)) pn]))
      as [stream'' Hloop];
      [done | done | done | apply lookup_insert_eq | lia | lia | lia |].
    exists stream''. cbn [S3.uploadLoop]. rewrite Hread.
    rewrite bool_decide_eq_false_2 by (intros [? ?]; destruct Herr; done).
    destruct (Z.eqb_spec (len (takeZ S3.bufSize d)) 0) as [Hz|_].
    { rewrite len_takeZ in Hz by lia. lia. }
    rewrite (UploadPart_ok ctx s _ pn _ u) by (done || lia).
    rewrite wrap64_small by (unfold maxPartNumber in Hmax; lia).
    rewrite Hloop. cbn [afterParts partTags].
    rewrite (UploadPart_ok Background s _ pn _ u) by (done || lia).
    cbn [fst etagOf setUploads logCall]. by rewrite <- app_assoc.
Qed.

Lemma CreateMultipartUpload_ok ctx s path :
  ctx_done ctx = false → noFault s →
  client_CreateMultipartUpload ctx s path
  = (bumpUploadId
       (setUploads (logCall s (CreateMultipartUpload path))
          (<[nextUploadId s := mkUpload path ∅]> (uploads s))),
     OK (mkCreateMultipartUploadOutput (S3Bucket s) path (nextUploadId s))).
Proof.
  intros Hctx Hf. unfold client_CreateMultipartUpload, request.
  rewrite Hctx. cbn [fault logCall]. by rewrite Hf.
Qed.

Lemma CompleteMultipartUpload_ok ctx s id u parts bodies :
  ctx_done ctx = false → noFault s → uploads s !! id = Some u →
  parts ≠ [] → ascending parts = true →
  partBodies (u_parts u) parts = Some bodies → bigEnough bodies = true →
  client_CompleteMultipartUpload ctx s id parts
  = (setUploads
       (setObjects (logCall s (CompleteMultipartUpload id parts))
          (<[u_key u := mkObject (concat bodies) ∅]> (objects s)))
       (delete id (uploads s)),
     OK tt).
Proof.
  intros Hctx Hf Hu Hne Hasc Hbodies Hbig.
  unfold client_CompleteMultipartUpload, request.
  rewrite Hctx. cbn [fault logCall uploads]. rewrite Hf, Hu.
  destruct parts as [|p ps]; [done|].
  rewrite Hasc. cbn [negb]. rewrite Hbodies, Hbig. done.
Qed.

Lemma chunks_count_bound (d : list byte) :
  len d ≤ maxPartNumber * S3.bufSize →
  len (chunks S3.bufSize d) ≤ maxPartNumber.
Proof.
  intros Hd. rewrite len_chunks by done.
  apply Z.lt_succ_r. apply Z.div_lt_upper_bound; [done|].
  unfold S3.bufSize, maxPartNumber in *. lia.
Qed.

(** C1 at the failing input: a source that hands over one byte for each
    read (iotest.OneByteReader).  The two bytes of the input are one chunk,
    yet [StreamToFile] of the S3 backend uploads them as two parts of one
    byte each, one part for each read; the service refuses to finalize
    parts this small, so the call returns its error, no object appears at
    the path and the upload is left open.  [StreamToFile] of the local
    backend, given the same source, writes the two bytes and returns nil. *)
Theorem StreamToFile_short_reads :
  observe "k"
    (S3.StreamToFile 3 emptyService (oneByteReader [x61; x62]) "k" None)
  = Some ([CreateMultipartUpload "k";
           UploadPart 0 1 [x61];
           UploadPart 0 2 [x62];
           CompleteMultipartUpload 0
             [mkCompletedPart "a" 1; mkCompletedPart "b" 2]],
          Some (AwsErr "EntityTooSmall"), None,
          [(0, mkUpload "k" {[ 1 := ("a", [x61]); 2 := ("b", [x62]) ]})]) ∧
  chunks S3.bufSize [x61; x62] = [[x61; x62]] ∧
  (λ r : FS * Reader * option error, (r.1.1, r.2)) <$>
    LocalOps.StreamToFile 3 ∅ (oneByteReader [x61; x62]) "k" None
  = Some ({[ "k" := [x61; x62] ]}, None).
Proof. repeat split; vm_compute; reflexivity. Qed.

(** X23: [StreamToFile] on the S3 backend reads with a buffer of 5 MiB.
    When the source fills the buffer on every read as long as data remains
    (as a bytes.Reader does), the input is not empty and has at most 10000
    chunks, and the service answers every request, then with enough rounds
    the call returns nil; it has opened an upload, uploaded the consecutive
    5 MiB chunks of the input (the last one may be smaller) as the parts
    1, 2, ... in this order, stopped at the read of no bytes, and finalized
    the upload with these parts in the order of their numbers; the object
    at the path then holds exactly the bytes of the input and the upload is
    closed.  The number of parts is the size divided by 5 MiB, rounded up:
    1, 1 and 2 for inputs of exactly 5 MiB, 5 MiB - 1 byte and
    5 MiB + 1 byte. *)
Theorem StreamToFile_chunks (fuel : nat) (ctx : Context) (s : Service)
    (stream : Reader) (d : list byte) (path : string) (ttl : option Z) :
  fills S3.bufSize stream d →
  ctx_done ctx = false → noFault s → d ≠ [] →
  len d ≤ maxPartNumber * S3.bufSize →
  (length (chunks S3.bufSize d) < fuel)%nat →
  (∃ s' stream',
     S3.StreamToFileWithContext fuel ctx s stream path ttl
     = Some (s', stream', None) ∧
     calls s'
     = calls s ++
       CreateMultipartUpload path
       :: partCalls (nextUploadId s) 1 (chunks S3.bufSize d) ++
       [CompleteMultipartUpload (nextUploadId s)
          (partTags (etagOf s) 1 (chunks S3.bufSize d))] ∧
     objects s' = <[path := mkObject d ∅]> (objects s) ∧
     uploads s' = delete (nextUploadId s) (uploads s)) ∧
  concat (chunks S3.bufSize d) = d ∧
  len (chunks S3.bufSize d) = (len d + S3.bufSize - 1) / S3.bufSize ∧
  (len d = S3.bufSize → len (chunks S3.bufSize d) = 1) ∧
  (len d = S3.bufSize - 1 → len (chunks S3.bufSize d) = 1) ∧
  (len d = S3.bufSize + 1 → len (chunks S3.bufSize d) = 2).
Proof.
  intros Hfill Hctx Hf Hd Hsize Hfuel.
  assert (Hbuf : 0 < S3.bufSize) by done.
  split; [|split; [by apply concat_chunks|split; [by apply len_chunks|]]].
  2:{ rewrite len_chunks by done. repeat split; intros ->; reflexivity. }
  pose proof (chunks_count_bound d Hsize) as Hcount.
  unfold S3.StreamToFileWithContext.
  rewrite CreateMultipartUpload_ok by done.
  set (id := nextUploadId s).
  set (u0 := mkUpload path ∅).
  set (s1 := bumpUploadId _).
  set (resp := mkCreateMultipartUploadOutput _ _ _).
  assert (Hf1 : noFault s1) by done.
  assert (Hu1 : uploads s1 !! UploadId resp = Some u0)
    by apply lookup_insert_eq.
  destruct (uploadLoop_fills ctx path resp fuel stream d s1 1 [] u0)
    as [stream' Hloop]; [done | done | done | done | lia | lia | done |].
  destruct (afterParts_spec id (chunks S3.bufSize d) s1 1 u0)
    as (Hobj & Hup & Hcalls & Hetag & Hfault); [done | done | lia | lia |].
  rewrite Hloop. cbn [app]. unfold S3.completeMultipartUpload.
  change (UploadId resp) with id. change (etagOf s1) with (etagOf s).
  set (s2 := afterParts s1 id 1 (chunks S3.bufSize d)) in *.
  rewrite (CompleteMultipartUpload_ok ctx s2 id
             (mkUpload path (partsMap ∅ (etagOf s) 1 (chunks S3.bufSize d)))
             _ (chunks S3.bufSize d)).
  - eexists _, stream'. split; [reflexivity|].
    cbn [calls objects uploads setUploads setObjects logCall u_key].
    rewrite Hcalls, Hobj, Hup, concat_chunks by done.
    change (calls s1) with (calls s ++ [CreateMultipartUpload path]).
    change (objects s1) with (objects s).
    change (uploads s1) with (<[id := u0]> (uploads s)).
    rewrite insert_insert_eq, delete_insert_eq, <- !app_assoc. done.
  - done.
  - intros c. rewrite Hfault. apply Hf.
  - rewrite Hup. apply lookup_insert_eq.
  - intros Htags. apply (f_equal length) in Htags.
    rewrite partTags_length in Htags.
    destruct (chunks S3.bufSize d) eqn:Hc; [|done].
    by apply chunks_eq_nil in Hc.
  - apply ascending_partTags.
  - apply partBodies_partsMap.
  - by apply bigEnough_chunks.
Qed.

Lemma StreamToFile_chunks_witness :
  ∃ s' stream',
    S3.StreamToFileWithContext 2 Background emptyService
      (bytesReader [x61; x62]) "k" None = Some (s', stream', None) ∧
    calls s'
    = calls emptyService ++
      CreateMultipartUpload "k"
      :: partCalls (nextUploadId emptyService) 1
           (chunks S3.bufSize [x61; x62]) ++
      [CompleteMultipartUpload (nextUploadId emptyService)
         (partTags (etagOf emptyService) 1 (chunks S3.bufSize [x61; x62]))] ∧
    objects s' = <[ "k" := mkObject [x61; x62] ∅]> (objects emptyService) ∧
    uploads s' = delete (nextUploadId emptyService) (uploads emptyService).
Proof.
  refine (proj1 (StreamToFile_chunks 2 Background emptyService
                   (bytesReader [x61; x62]) [x61; x62] "k" None
                   _ _ _ _ _ _)).
  - apply fills_bytesReader. reflexivity.
  - reflexivity.
  - intros c. reflexivity.
  - discriminate.
  - vm_compute. discriminate.
  - vm_compute. lia.
Defined.

(** C2 at the failing input: the first read fails; [StreamToFile] returns
    the error of the read, no request to abort was made and the upload is
    still open. *)
Theorem StreamToFile_read_error :
  observe "k"
    (S3.StreamToFile 1 emptyService (errReader (ErrOther "read failed"))
       "k" None)
  = Some ([CreateMultipartUpload "k"], Some (ErrOther "read failed"), None,
          [(0, mkUpload "k" ∅)]).
Proof. vm_compute. reflexivity. Qed.

(** The same for every source whose first read fails with an error other
    than [io.EOF], on a service that answers: the error is returned, the
    only request made is the one that opened the upload, and the upload is
    still there. *)
Lemma StreamToFile_read_error_no_abort (fuel : nat) (ctx : Context)
    (s : Service) (stream stream' : Reader) (data : list byte) (err : error)
    (path : string) (ttl : option Z) :
  ctx_done ctx = false → noFault s →
  Read stream S3.bufSize = (data, Some err, stream') → err ≠ EOF →
  ∃ s',
    S3.StreamToFileWithContext (S fuel) ctx s stream path ttl
    = Some (s', stream', Some err) ∧
    calls s' = calls s ++ [CreateMultipartUpload path] ∧
    uploads s' !! nextUploadId s = Some (mkUpload path ∅).
Proof.
  intros Hctx Hf Hread Herr. unfold S3.StreamToFileWithContext.
  rewrite CreateMultipartUpload_ok by done.
  cbn [S3.uploadLoop]. rewrite Hread.
  rewrite bool_decide_eq_true_2 by (split; congruence).
  eexists. split; [reflexivity|]. split; [reflexivity|].
  apply lookup_insert_eq.
Qed.

(** The other path: when uploading a part fails, the upload is aborted and
    the error of the part is returned. *)
Lemma StreamToFile_upload_error :
  observe "k"
    (S3.StreamToFile 1 noUploadService (bytesReader [x61; x62]) "k" None)
  = Some ([CreateMultipartUpload "k"; UploadPart 0 1 [x61; x62];
           AbortMultipartUpload 0],
          Some (ErrOther "upload failed"), None, []).
Proof. vm_compute. reflexivity. Qed.

(** * Further properties *)

(** ** The codec on arbitrary input *)

Lemma bytesSplit_length sep l :
  length (bytesSplit sep l) = S (length (filter (λ c, c = sep) l)).
Proof.
  induction l as [|c l IH]; [done|]. simpl.
  destruct (decide (c = sep)) as [->|Hne].
  - rewrite filter_cons_True by done. simpl. by rewrite IH.
  - rewrite filter_cons_False by done.
    destruct (bytesSplit sep l) as [|w ws]; [done|]. done.
Qed.

Lemma filter_eq_elem (sep : byte) l :
  sep ∈ l → (1 ≤ length (filter (λ c, c = sep) l))%nat.
Proof.
  intros Hin.
  assert (sep ∈ filter (λ c, c = sep) l) as Hf
    by (by apply list_elem_of_filter).
  destruct (filter (λ c, c = sep) l); [by apply elem_of_nil in Hf|].
  simpl. lia.
Qed.

(** A line [k=v] is taken when neither side holds a '=', and dropped
    otherwise. *)
Lemma bytes2MetaLine_pair (acc : gmap string string) (k v : list byte) :
  bytes2MetaLine acc (k ++ EQ :: v)
  = if decide ((EQ ∉ k) ∧ (EQ ∉ v))
    then <[string_of_list_byte k := string_of_list_byte v]> acc
    else acc.
Proof.
  unfold bytes2MetaLine.
  destruct (decide (len (k ++ EQ :: v) = 0)) as [Hz|_].
  { unfold len in Hz. rewrite length_app in Hz. simpl in Hz. lia. }
  simpl. destruct (decide ((EQ ∉ k) ∧ (EQ ∉ v))) as [[Hk Hv]|Hno].
  - by rewrite bytesSplit_pair.
  - destruct (decide (len (bytesSplit EQ (k ++ EQ :: v)) ≠ 2)) as [|Hlen];
      [done|].
    exfalso. apply Hlen. unfold len.
    rewrite bytesSplit_length, filter_app, filter_cons_True, length_app by done.
    simpl.
    assert (EQ ∈ k ∨ EQ ∈ v) as [Hin|Hin].
    { destruct (decide (EQ ∈ k)); [by left|].
      destruct (decide (EQ ∈ v)); [by right|]. by destruct Hno. }
    + pose proof (filter_eq_elem EQ k Hin). lia.
    + pose proof (filter_eq_elem EQ v Hin). lia.
Qed.

Section codec_any.
Context `{RangeOrder}.

Lemma bytes2Meta_lines_any kvs (acc : gmap string string) :
  Forall (λ kv : string * string,
            (NL ∉ list_byte_of_string kv.1) ∧ (NL ∉ list_byte_of_string kv.2))
         kvs →
  foldl bytes2MetaLine acc (bytesSplit NL (foldl fprintfPair [] kvs))
  = foldl (λ cur kv, <[kv.1 := kv.2]> cur) acc (filter eqFree kvs).
Proof.
  intros Hc. revert acc. induction Hc as [|[k v] kvs [Hk Hv] _ IH]; intros acc.
  - done.
  - simpl. rewrite foldl_fprintfPair. unfold fprintfPair at 1. simpl.
    simpl in Hk, Hv.
    replace (list_byte_of_string k ++ EQ :: list_byte_of_string v ++ [NL])
      with ((list_byte_of_string k ++ EQ :: list_byte_of_string v) ++ [NL])
      by (by rewrite <- app_assoc).
    rewrite <- app_assoc. simpl.
    rewrite bytesSplit_app.
    2:{ rewrite elem_of_app, elem_of_cons. intros [?|[?|?]]; done. }
    simpl. rewrite IH, bytes2MetaLine_pair.
    rewrite !string_of_list_byte_of_string.
    destruct (decide _) as [Hfree|Hno].
    + by rewrite (filter_cons_True eqFree) by done.
    + by rewrite (filter_cons_False eqFree) by done.
Qed.

(** Encoding and decoding keeps exactly the entries without a '='. *)
Lemma bytes2Meta_meta2Bytes_any (m : gmap string string) :
  nlFree m → bytes2Meta (meta2Bytes m) = filter eqFree m.
Proof.
  intros Hnl. unfold bytes2Meta, meta2Bytes.
  rewrite bytes2Meta_lines_any.
  2:{ apply Forall_forall. intros [k v] Hin.
      rewrite (rangeOrder_perm m) in Hin.
      apply elem_of_map_to_list in Hin. by apply Hnl. }
  assert (Hnd : NoDup (rangeOrder m).*1).
  { rewrite (rangeOrder_perm m). apply NoDup_fst_map_to_list. }
  assert (Hnd' : NoDup (filter eqFree (rangeOrder m)).*1).
  { eapply sublist_NoDup; [exact Hnd|].
    apply fmap_sublist, sublist_filter. }
  apply map_eq. intros k. rewrite foldl_insert_lookup by done.
  rewrite lookup_empty. apply option_eq. intros v.
  rewrite map_lookup_filter_Some.
  destruct (list_to_map (filter eqFree (rangeOrder m)) !! k) as [v'|] eqn:Hl.
  - apply elem_of_list_to_map in Hl; [|done].
    apply list_elem_of_filter in Hl as [Hfree Hin].
    rewrite (rangeOrder_perm m) in Hin. apply elem_of_map_to_list in Hin.
    split.
    + intros [= <-]. done.
    + intros [Hm _]. congruence.
  - split; [done|]. intros [Hm Hfree]. exfalso.
    assert ((k, v) ∈ filter eqFree (rangeOrder m)) as Hin.
    { apply list_elem_of_filter. split; [done|].
      rewrite (rangeOrder_perm m). by apply elem_of_map_to_list. }
    apply elem_of_list_to_map in Hin; [|done]. congruence.
Qed.

(** X2: for a mapping without a newline in its keys and values, decoding the
    encoding gives back exactly the entries that hold no '=' in key or
    value; an entry with a '=' is dropped whole, and no entry is altered. *)
Theorem codec_drops_entries_with_eq (m : gmap string string) :
  nlFree m → bytes2Meta (meta2Bytes m) = filter eqFree m.
Proof. apply bytes2Meta_meta2Bytes_any. Qed.

(** X3: merging an override into the current metadata (the loop
    [for k, v := range meta { current[k] = v }]) gives, for every key, the
    value of the override when it has one and the current value otherwise,
    in whichever order the override is visited; a nil override changes
    nothing. *)
Theorem merge_override_wins (current : gmap string string)
    (meta : option (gmap string string)) (k : string) :
  mergeMeta current meta !! k
  = match default ∅ meta !! k with
    | Some v => Some v
    | None => current !! k
    end.
Proof.
  rewrite mergeMeta_union, lookup_union.
  destruct (default ∅ meta !! k), (current !! k); done.
Qed.

End codec_any.

Lemma codec_drops_entries_with_eq_witness :
  bytes2Meta (@meta2Bytes listOrder {[ "owner" := "a=b"; "team" := "x" ]})
  = filter eqFree {[ "owner" := "a=b"; "team" := "x" ]}.
Proof.
  apply codec_drops_entries_with_eq.
  apply (bool_decide_unpack _). vm_compute. exact I.
Defined.

(** X1: whatever bytes are decoded, no key and no value of the result holds
    a '=' or a newline. *)
Theorem decoded_meta_clean (b : list byte) : cleanMeta (bytes2Meta b).
Proof.
  unfold bytes2Meta.
  assert (Hgen : ∀ lines acc, Forall (λ w, NL ∉ w) lines → cleanMeta acc →
                   cleanMeta (foldl bytes2MetaLine acc lines)).
  { induction lines as [|l lines IH]; intros acc Hl Hacc; [done|].
    apply Forall_cons in Hl as [Hl Hls]. simpl. apply IH; [done|].
    by apply bytes2MetaLine_clean. }
  apply Hgen; [|apply map_Forall_empty].
  eapply Forall_impl; [apply bytesSplit_pieces|]. by intros w [? _].
Qed.

(** ** Files of the Local backend *)

Lemma string_app_inj_r (a b m : string) : a +:+ m = b +:+ m → a = b.
Proof.
  revert b. induction a as [|c a IH]; intros b Heq.
  - destruct b as [|c' b]; [done|].
    apply (f_equal String.length) in Heq.
    rewrite !string_length_app in Heq. simpl in Heq. lia.
  - destruct b as [|c' b].
    + apply (f_equal String.length) in Heq.
      rewrite !string_length_app in Heq. simpl in Heq. lia.
    + simpl in Heq. injection Heq as -> Heq. f_equal. by apply IH.
Qed.

Lemma Local_GetFile_lookup (fs : FS) path :
  Local.GetFile fs path
  = match fs !! path with
    | Some content => if decide (content = []) then (None, None)
                      else (Some content, None)
    | None => (None, None)
    end.
Proof.
  unfold Local.GetFile.
  destruct (fs !! path) as [content|] eqn:Hc.
  - destruct (decide (content = [])) as [->|Hne].
    + by rewrite Local_IsExist_false by auto.
    + assert (Local.IsExist fs path = true) as ->
        by (apply Local_IsExist_lookup; eauto).
      simpl. unfold os_ReadFile. by rewrite Hc.
  - by rewrite Local_IsExist_false by auto.
Qed.

Lemma CreateFile_then_GetFile_at `{RangeOrder} (fs : FS) (path : string)
    (file : list byte) (ttl : option Z) (meta : option (gmap string string)) :
  Local.GetFile (Local.CreateFile fs path file ttl None).1 path
  = (if decide (file = []) then (None, None) else (Some file, None)) ∧
  WebDav.GetFile (WebDav.CreateFile fs path file ttl meta).1 path
  = (if decide (file = []) then (None, None) else (Some file, None)).
Proof.
  split.
  - rewrite Local_GetFile_lookup. simpl. by rewrite lookup_insert_eq.
  - change (WebDav.GetFile ?f ?p) with (Local.GetFile f p).
    rewrite Local_GetFile_lookup.
    destruct meta; simpl; by rewrite lookup_insert_eq.
Qed.

(** X4: what [CreateFile] without metadata writes is what [GetFile] reads
    back on the local backend, and on the WebDav backend with or without
    metadata, except that content of no bytes reads back as nil: a file
    that is empty is taken for one that is absent. *)
Theorem CreateFile_then_GetFile `{RangeOrder} (fs : FS) (path : string)
    (file : list byte) (ttl : option Z) (meta : option (gmap string string)) :
  Local.GetFile (Local.CreateFile fs path file ttl None).1 path
  = (if decide (file = []) then (None, None) else (Some file, None)) ∧
  WebDav.GetFile (WebDav.CreateFile fs path file ttl meta).1 path
  = (if decide (file = []) then (None, None) else (Some file, None)).
Proof. apply CreateFile_then_GetFile_at. Qed.

Lemma io_Copy_fresh (fs : FS) src dst content :
  src ≠ dst → fs !! src = Some content →
  io_Copy (<[dst := []]> fs) (mkFile dst 0) (mkFile src 0)
  = (<[dst := content]> fs, OK (len content)).
Proof.
  intros Hne Hc. unfold io_Copy, io_ReadAll. simpl.
  rewrite lookup_insert_eq, lookup_insert_ne by done. rewrite Hc. simpl.
  rewrite dropZ_0, app_nil_r, insert_insert_eq. done.
Qed.

Lemma io_Copy_self (fs : FS) p :
  io_Copy (<[p := []]> fs) (mkFile p 0) (mkFile p 0)
  = (<[p := []]> fs, OK 0).
Proof.
  unfold io_Copy, io_ReadAll. simpl. rewrite lookup_insert_eq. simpl.
  by rewrite insert_insert_eq.
Qed.

Lemma Local_copyMeta_other `{RangeOrder} (fs : FS) src dst meta q :
  q ≠ dst +:+ META_PREFIX →
  (Local.copyMeta fs src dst meta).2 = None ∧
  (Local.copyMeta fs src dst meta).1 !! q = fs !! q.
Proof.
  intros Hq. unfold Local.copyMeta, os_Stat, os_ReadFile.
  destruct (fs !! (src +:+ META_PREFIX)) as [mb|]; simpl.
  - destruct (bool_decide (0 < len mb)); simpl.
    + by rewrite lookup_insert_ne.
    + destruct meta; simpl; [by rewrite lookup_insert_ne | done].
  - destruct meta; simpl; [by rewrite lookup_insert_ne | done].
Qed.

(** X5: [CopyFile] of the local backend, for a source that exists and is
    neither the destination nor the sidecar of the destination, leaves the
    content of the source at the destination and the source as it was, and
    returns nil, whatever the metadata are; for a source
    that is absent it returns the error of [os.Open] and changes nothing,
    the destination is not even created. *)
Theorem Local_CopyFile_content `{RangeOrder} (fs : FS) (src dst : string)
    (ttl : option Z) (meta : option (gmap string string)) :
  (∀ content, fs !! src = Some content →
     src ≠ dst → src ≠ dst +:+ META_PREFIX →
     (Local.CopyFile fs src dst ttl meta).2 = None ∧
     (Local.CopyFile fs src dst ttl meta).1 !! dst = Some content ∧
     (Local.CopyFile fs src dst ttl meta).1 !! src = Some content) ∧
  (fs !! src = None →
     Local.CopyFile fs src dst ttl meta = (fs, Some ErrNotExist)).
Proof.
  split.
  - intros content Hc Hne Hsm. unfold Local.CopyFile, os_Open, os_Create.
    rewrite Hc. rewrite (io_Copy_fresh fs src dst content) by done.
    destruct (Local_copyMeta_other (<[dst := content]> fs) src dst meta dst)
      as [He Hd]; [apply meta_name_ne|].
    destruct (Local_copyMeta_other (<[dst := content]> fs) src dst meta src)
      as [_ Hs]; [done|].
    rewrite He, Hd, Hs, lookup_insert_eq, lookup_insert_ne by done. done.
  - intros Hc. unfold Local.CopyFile, os_Open. by rewrite Hc.
Qed.

Lemma Local_CopyFile_content_witness :
  (@Local.CopyFile listOrder bobFiles "src" "dst" None None).1 !! "dst"
    = Some (list_byte_of_string "data") ∧
  @Local.CopyFile listOrder bobFiles "gone" "dst" None None
    = (bobFiles, Some ErrNotExist).
Proof.
  pose proof (@Local_CopyFile_content listOrder bobFiles "src" "dst" None None)
    as [Hin _].
  pose proof (@Local_CopyFile_content listOrder bobFiles "gone" "dst" None None)
    as [_ Hout].
  split.
  - apply (Hin (list_byte_of_string "data"));
      [vm_compute; reflexivity | discriminate | discriminate].
  - apply Hout. vm_compute. reflexivity.
Defined.

(** X6: [CopyFile] of the local backend with the source as its destination
    empties the file: [os.Create] truncates it before anything is read. *)
Theorem Local_CopyFile_self `{RangeOrder} (fs : FS) (path : string)
    (ttl : option Z) (meta : option (gmap string string))
    (content : list byte) :
  fs !! path = Some content →
  (Local.CopyFile fs path path ttl meta).2 = None ∧
  (Local.CopyFile fs path path ttl meta).1 !! path = Some [].
Proof.
  intros Hc. unfold Local.CopyFile, os_Open, os_Create.
  rewrite Hc, io_Copy_self.
  destruct (Local_copyMeta_other (<[path := []]> fs) path path meta path)
    as [He Hd]; [apply meta_name_ne|].
  by rewrite He, Hd, lookup_insert_eq.
Qed.

Lemma Local_CopyFile_self_witness :
  (@Local.CopyFile listOrder bobFiles "src" "src" None None).2 = None ∧
  (@Local.CopyFile listOrder bobFiles "src" "src" None None).1 !! "src"
    = Some [].
Proof.
  apply (@Local_CopyFile_self listOrder bobFiles "src" None None
           (list_byte_of_string "data")).
  vm_compute. reflexivity.
Defined.

Lemma os_Remove_eq (fs : FS) name :
  os_Remove fs name
  = (delete name fs, if fs !! name is Some _ then None else Some ErrNotExist).
Proof.
  unfold os_Remove. destruct (fs !! name) eqn:Hn; [done|].
  by rewrite delete_id.
Qed.

(** X7: [RemoveFile] of the local backend removes the file and its sidecar
    and touches no other file; it returns nil when the file was there and
    [ErrFileNotFound] when it was not, and in that case a sidecar left
    without its file is removed all the same. *)
Theorem Local_RemoveFile_effect (fs : FS) (path : string) :
  (LocalOps.RemoveFile fs path).1 !! path = None ∧
  (LocalOps.RemoveFile fs path).1 !! (path +:+ META_PREFIX) = None ∧
  (∀ q, q ≠ path → q ≠ path +:+ META_PREFIX →
     (LocalOps.RemoveFile fs path).1 !! q = fs !! q) ∧
  (LocalOps.RemoveFile fs path).2
  = (if fs !! path is Some _ then None else Some ErrFileNotFound).
Proof.
  pose proof (meta_name_ne path) as Hne.
  unfold LocalOps.RemoveFile. rewrite (os_Remove_eq fs).
  rewrite (os_Remove_eq (delete _ fs)).
  rewrite lookup_delete_ne by done.
  destruct (fs !! path) as [content|] eqn:Hc; cbn [fst snd os_IsNotExist].
  - rewrite lookup_delete_eq. split; [done|].
    rewrite lookup_delete_ne, lookup_delete_eq by done. split; [done|].
    split; [|done]. intros q Hq Hqm. by rewrite !lookup_delete_ne.
  - change (os_IsNotExist ErrNotExist) with true. cbn [fst snd].
    split; [|split; [|split; [|done]]].
    + apply lookup_delete_eq.
    + rewrite lookup_delete_ne by done. apply lookup_delete_eq.
    + intros q Hq Hqm. by rewrite !lookup_delete_ne.
Qed.

Lemma Local_RemoveFile_effect_witness :
  (LocalOps.RemoveFile bobFiles "src").1 !! "src" = None ∧
  (LocalOps.RemoveFile bobFiles "src").1 !! "src.meta" = None ∧
  (LocalOps.RemoveFile bobFiles "src").2 = None ∧
  (LocalOps.RemoveFile bobFiles "gone").1 !! "src" = bobFiles !! "src" ∧
  (LocalOps.RemoveFile bobFiles "gone").2 = Some ErrFileNotFound.
Proof.
  destruct (Local_RemoveFile_effect bobFiles "src") as (H1 & H2 & _ & H4).
  destruct (Local_RemoveFile_effect bobFiles "gone") as (_ & _ & H3 & H5).
  split; [exact H1|]. split; [exact H2|]. split; [exact H4|].
  split; [|exact H5]. apply H3; discriminate.
Defined.

Lemma LocalOps_moveMeta_none (fs : FS) src dst :
  Local.IsExist fs (src +:+ META_PREFIX) = false →
  LocalOps.moveMeta fs src dst = (fs, None).
Proof.
  unfold Local.IsExist, LocalOps.moveMeta.
  destruct (os_Stat fs (src +:+ META_PREFIX)) as [info|e] eqn:Hs.
  - by intros ->.
  - unfold os_Stat in Hs. destruct (fs !! _); [done|]. by injection Hs as <-.
Qed.

Lemma LocalOps_moveMeta_some (fs : FS) src dst mb :
  src ≠ dst → fs !! (src +:+ META_PREFIX) = Some mb → mb ≠ [] →
  LocalOps.moveMeta fs src dst
  = (delete (src +:+ META_PREFIX) (<[dst +:+ META_PREFIX := mb]> fs), None).
Proof.
  intros Hne Hmb Hnil.
  assert (Hmne : src +:+ META_PREFIX ≠ dst +:+ META_PREFIX)
    by (intros Heq; by apply string_app_inj_r in Heq).
  unfold LocalOps.moveMeta, os_Stat, os_Open, os_Create. rewrite Hmb.
  cbn [fi_size].
  assert (0 < len mb) by (destruct mb; [done|]; rewrite len_cons;
                          pose proof (len_nonneg mb); lia).
  rewrite bool_decide_eq_true_2 by done.
  rewrite (io_Copy_fresh fs _ _ mb) by done.
  rewrite os_Remove_eq, lookup_insert_ne by done. by rewrite Hmb.
Qed.

(** X8: [MoveFile] of the local backend, for a source that exists and is
    not empty, a destination other than the source, and neither of the two
    the sidecar of the other: the call returns nil, the destination holds
    the content of the source, the source is gone, and when the source has
    a sidecar that is not empty, [Stat] of the destination reports the
    metadata that [Stat] of the source reported and the sidecar of the
    source is gone.  For a source that is absent the call returns
    [ErrFileNotFound] and changes nothing. *)
Theorem Local_MoveFile_moves (fs : FS) (src dst : string) :
  (∀ content, fs !! src = Some content → content ≠ [] →
     src ≠ dst → dst ≠ src +:+ META_PREFIX → src ≠ dst +:+ META_PREFIX →
     (LocalOps.MoveFile fs src dst).2 = None ∧
     Local.GetFile (LocalOps.MoveFile fs src dst).1 dst
       = (Some content, None) ∧
     (LocalOps.MoveFile fs src dst).1 !! src = None ∧
     (Local.IsExist fs (src +:+ META_PREFIX) = true →
        statMeta (Local.Stat (LocalOps.MoveFile fs src dst).1 dst)
          = statMeta (Local.Stat fs src) ∧
        (LocalOps.MoveFile fs src dst).1 !! (src +:+ META_PREFIX) = None)) ∧
  (fs !! src = None →
     LocalOps.MoveFile fs src dst = (fs, Some ErrFileNotFound)).
Proof.
  split.
  - intros content Hc Hnil Hne Hds Hsd.
    pose proof (meta_name_ne src) as Hsm. pose proof (meta_name_ne dst) as Hdm.
    unfold LocalOps.MoveFile, os_Stat, os_Open, os_Create. rewrite Hc.
    cbn iota. rewrite (io_Copy_fresh fs src dst content) by done.
    rewrite os_Remove_eq, lookup_insert_ne, Hc by done.
    set (fs3 := delete src (<[dst := content]> fs)).
    assert (Hm3 : fs3 !! (src +:+ META_PREFIX) = fs !! (src +:+ META_PREFIX)).
    { unfold fs3. rewrite lookup_delete_ne, lookup_insert_ne by done. done. }
    destruct (Local.IsExist fs (src +:+ META_PREFIX)) eqn:Hex.
    + apply Local_IsExist_lookup in Hex as (mb & Hmb & Hmbne).
      rewrite (LocalOps_moveMeta_some fs3 src dst mb) by congruence.
      cbn [fst snd]. split; [done|].
      assert (Hdst : delete (src +:+ META_PREFIX)
                       (<[dst +:+ META_PREFIX := mb]> fs3) !! dst
                     = Some content).
      { rewrite lookup_delete_ne, lookup_insert_ne by done.
        unfold fs3. rewrite lookup_delete_ne by done.
        apply lookup_insert_eq. }
      split; [by rewrite Local_GetFile_lookup, Hdst, decide_False|].
      split.
      { rewrite lookup_delete_ne, lookup_insert_ne by done.
        apply lookup_delete_eq. }
      intros _. split; [|apply lookup_delete_eq].
      unfold statMeta, Local.Stat, os_Stat. rewrite Hdst, Hc.
      rewrite !Local_GetFile_lookup.
      rewrite lookup_delete_ne
        by (intros Heq; by apply string_app_inj_r in Heq).
      rewrite lookup_insert_eq, Hmb. by rewrite !decide_False.
    + assert (Local.IsExist fs3 (src +:+ META_PREFIX) = false) as Hex3.
      { apply not_true_is_false. rewrite Local_IsExist_lookup, Hm3.
        rewrite <- Local_IsExist_lookup. congruence. }
      rewrite (LocalOps_moveMeta_none fs3 src dst Hex3). cbn [fst snd].
      split; [done|].
      assert (Hdst : fs3 !! dst = Some content).
      { unfold fs3. rewrite lookup_delete_ne by done. apply lookup_insert_eq. }
      split; [by rewrite Local_GetFile_lookup, Hdst, decide_False|].
      split; [apply lookup_delete_eq | done].
  - intros Hc. unfold LocalOps.MoveFile, os_Stat. by rewrite Hc.
Qed.

Lemma Local_MoveFile_moves_witness :
  Local.GetFile (LocalOps.MoveFile bobFiles "src" "dst").1 "dst"
    = (Some (list_byte_of_string "data"), None) ∧
  (LocalOps.MoveFile bobFiles "src" "dst").1 !! "src" = None ∧
  statMeta (Local.Stat (LocalOps.MoveFile bobFiles "src" "dst").1 "dst")
    = statMeta (Local.Stat bobFiles "src") ∧
  LocalOps.MoveFile bobFiles "gone" "dst" = (bobFiles, Some ErrFileNotFound).
Proof.
  pose proof (Local_MoveFile_moves bobFiles "src" "dst") as [Hin _].
  pose proof (Local_MoveFile_moves bobFiles "gone" "dst") as [_ Hout].
  destruct (Hin (list_byte_of_string "data")) as (_ & Hget & Hsrc & Hmeta);
    [vm_compute; reflexivity | discriminate | discriminate | discriminate
     | discriminate |].
  destruct Hmeta as [Hm _]; [vm_compute; reflexivity|].
  split; [exact Hget|]. split; [exact Hsrc|]. split; [exact Hm|].
  apply Hout. vm_compute. reflexivity.
Defined.

(** X9: [MoveFile] of the local backend with the source as its destination
    deletes the file and returns nil: the file is truncated by [os.Create],
    nothing is copied, and the source is removed; a sidecar that is not
    empty goes the same way. *)
Theorem Local_MoveFile_self (fs : FS) (path : string) (content : list byte) :
  fs !! path = Some content →
  (LocalOps.MoveFile fs path path).2 = None ∧
  (LocalOps.MoveFile fs path path).1 !! path = None ∧
  Local.IsExist (LocalOps.MoveFile fs path path).1 (path +:+ META_PREFIX)
    = false.
Proof.
  intros Hc. pose proof (meta_name_ne path) as Hsm.
  unfold LocalOps.MoveFile, os_Stat, os_Open, os_Create. rewrite Hc.
  cbn iota. rewrite io_Copy_self, os_Remove_eq, lookup_insert_eq.
  rewrite delete_insert_eq.
  destruct (Local.IsExist (delete path fs) (path +:+ META_PREFIX)) eqn:Hex.
  - apply Local_IsExist_lookup in Hex as (mb & Hmb & Hmbne).
    unfold LocalOps.moveMeta, os_Stat, os_Open, os_Create. rewrite Hmb.
    cbn [fi_size].
    assert (0 < len mb) by (destruct mb; [done|]; rewrite len_cons;
                            pose proof (len_nonneg mb); lia).
    rewrite bool_decide_eq_true_2 by done.
    rewrite io_Copy_self, os_Remove_eq, lookup_insert_eq. cbn [fst snd].
    split; [done|]. rewrite delete_insert_eq. split.
    + rewrite lookup_delete_ne by done. apply lookup_delete_eq.
    + apply Local_IsExist_false. left. apply lookup_delete_eq.
  - rewrite (LocalOps_moveMeta_none _ _ _ Hex). cbn [fst snd].
    split; [done|]. split; [apply lookup_delete_eq | done].
Qed.

Lemma Local_MoveFile_self_witness :
  (LocalOps.MoveFile bobFiles "src" "src").2 = None ∧
  (LocalOps.MoveFile bobFiles "src" "src").1 !! "src" = None ∧
  Local.IsExist (LocalOps.MoveFile bobFiles "src" "src").1 "src.meta" = false.
Proof.
  apply (Local_MoveFile_self bobFiles "src" (list_byte_of_string "data")).
  vm_compute. reflexivity.
Defined.

(** ** Streaming into a local file *)

Lemma File_Write_append (fs : FS) path cur data :
  fs !! path = Some cur →
  File_Write fs (mkFile path (len cur)) data
  = (<[path := cur ++ data]> fs, mkFile path (len (cur ++ data)),
     OK (len data)).
Proof.
  intros Hc. unfold File_Write. cbn [f_name f_off]. rewrite Hc.
  cbn [default from_option id].
  rewrite takeZ_all by lia.
  assert (dropZ (len cur + len data) cur = []) as ->.
  { apply dropZ_nil_iff; pose proof (len_nonneg cur);
      pose proof (len_nonneg data); lia. }
  rewrite app_nil_r. unfold len. rewrite length_app, Nat2Z.inj_add. done.
Qed.

Lemma writeLoop_delivers stream d fin :
  delivers LocalOps.bufSize stream d fin →
  ∃ k, ∀ fuel (fs : FS) path cur,
    (k ≤ fuel)%nat → fs !! path = Some cur →
    ∃ stream',
      LocalOps.writeLoop fuel fs (mkFile path (len cur)) stream
      = Some (<[path := cur ++ d]> fs, stream', fin).
Proof.
  induction 1 as [stream err stream' Hread Herr
                 |stream data e stream' Hread He
                 |stream data err stream' d fin Hdata Hread Herr _ [k IH]].
  - exists 1%nat. intros [|fuel] fs path cur Hk Hc; [lia|].
    exists stream'. cbn [LocalOps.writeLoop]. rewrite Hread.
    rewrite bool_decide_eq_false_2 by (intros [? ?]; destruct Herr; done).
    change (len (@nil byte) =? 0) with true. cbn iota.
    rewrite app_nil_r, insert_id by done. done.
  - exists 1%nat. intros [|fuel] fs path cur Hk Hc; [lia|].
    exists stream'. cbn [LocalOps.writeLoop]. rewrite Hread.
    rewrite bool_decide_eq_true_2 by (split; congruence).
    rewrite app_nil_r, insert_id by done. done.
  - exists (S k). intros [|fuel] fs path cur Hk Hc; [lia|].
    destruct (IH fuel (<[path := cur ++ data]> fs) path (cur ++ data))
      as [stream'' Hloop]; [lia | apply lookup_insert_eq |].
    exists stream''. cbn [LocalOps.writeLoop]. rewrite Hread.
    rewrite bool_decide_eq_false_2 by (intros [? ?]; destruct Herr; done).
    destruct (Z.eqb_spec (len data) 0) as [Hz|_].
    { apply len_nil_iff in Hz. done. }
    rewrite (File_Write_append fs path cur data Hc), Hloop.
    by rewrite insert_insert_eq, app_assoc.
Qed.

(** X10: [StreamToFile] of the local backend, on a source that hands over the
    bytes [d] in pieces of any size and then ends, with a read of no bytes
    or with an error: given enough rounds the call returns, nil at the end
    of the source and the error otherwise; the file then holds exactly the
    bytes handed over before, in place of what it held, so after an error
    the part written so far is left in place. *)
Theorem Local_StreamToFile_writes (stream : Reader) (d : list byte)
    (fin : option error) :
  delivers LocalOps.bufSize stream d fin →
  ∃ k, ∀ fuel (fs : FS) path ttl,
    (k ≤ fuel)%nat →
    ∃ stream',
      LocalOps.StreamToFile fuel fs stream path ttl
      = Some (<[path := d]> fs, stream', fin).
Proof.
  intros Hd. destruct (writeLoop_delivers stream d fin Hd) as [k Hk].
  exists k. intros fuel fs path ttl Hfuel.
  destruct (Hk fuel (<[path := []]> fs) path [] Hfuel) as [stream' Hloop];
    [apply lookup_insert_eq|].
  exists stream'. unfold LocalOps.StreamToFile, os_Create.
  change 0 with (len (@nil byte)). rewrite Hloop.
  by rewrite insert_insert_eq.
Qed.

Lemma Local_StreamToFile_writes_witness :
  ∃ k, ∀ fuel (fs : FS) path ttl,
    (k ≤ fuel)%nat →
    ∃ stream',
      LocalOps.StreamToFile fuel fs (oneByteReader [x61; x62]) path ttl
      = Some (<[path := [x61; x62]]> fs, stream', None).
Proof.
  apply (Local_StreamToFile_writes (oneByteReader [x61; x62]) [x61; x62] None).
  apply (delivers_more _ _ [x61] None (oneByteReader [x62]) [x62] None);
    [discriminate | reflexivity | by left |].
  apply (delivers_more _ _ [x62] None (oneByteReader []) [] None);
    [discriminate | reflexivity | by left |].
  apply (delivers_end _ _ (Some EOF) (oneByteReader []));
    [reflexivity | by right].
Defined.

(** ** More on partial reads *)

Lemma Local_GetFilePartially_read (fs : FS) path content offset length :
  fs !! path = Some content → content ≠ [] → 0 ≤ offset → 0 ≤ length →
  Local.GetFilePartially fs path offset length
  = Return (Some (takeZ length (dropZ offset content)
                  ++ zeros (length - len (takeZ length (dropZ offset content)))),
            None).
Proof.
  intros Hc Hne Ho Hl. unfold Local.GetFilePartially.
  assert (Local.IsExist fs path = true) as ->
    by (apply Local_IsExist_lookup; eauto).
  cbn [negb]. unfold os_Open. rewrite Hc.
  destruct (Z.ltb_spec length 0); [lia|].
  unfold Local.readInto.
  destruct (Z.ltb_spec length 0); [lia|].
  unfold File_ReadAt. cbn [f_name]. rewrite Hc. cbn [default from_option id].
  destruct (Z.ltb_spec offset 0); [lia|].
  destruct (len (takeZ length (dropZ offset content)) <? length); [|done].
  by destruct (decide (EOF ≠ EOF)).
Qed.

(** X11: a partial read that lies inside the object, with a positive length,
    returns exactly the bytes [offset, offset + length) on the local and on
    the S3 backend. *)
Theorem GetFilePartially_inside (fs : FS) (s : Service) (path : string)
    (offset length : Z) :
  (∀ content, fs !! path = Some content →
     0 ≤ offset → 0 < length → offset + length ≤ len content →
     Local.GetFilePartially fs path offset length
     = Return (Some (takeZ length (dropZ offset content)), None)) ∧
  (∀ o, objects s !! path = Some o → noFault s →
     0 ≤ offset → 0 < length → offset + length ≤ len (o_body o) →
     len (o_body o) < 2 ^ 63 →
     (S3.GetFilePartially s path offset length).2
     = (Some (takeZ length (dropZ offset (o_body o))), None)).
Proof.
  split.
  - intros content Hc Ho Hl Hin.
    assert (content ≠ []) as Hne.
    { intros ->. unfold len in Hin. simpl in Hin. lia. }
    rewrite (Local_GetFilePartially_read fs path content) by (done || lia).
    rewrite len_takeZ, len_dropZ by lia.
    rewrite Z.min_l, Z.sub_diag by lia. unfold zeros. simpl.
    by rewrite app_nil_r.
  - intros o Hobj Hf Ho Hl Hin Hsz.
    unfold S3.GetFilePartially, S3.GetFilePartiallyWithContext,
      S3.FileReaderWithContext, client_GetObject, request.
    cbn [ctx_done Background].
    destruct (Z.ltb_spec 0 length); [|lia].
    cbn [fault logCall objects]. rewrite Hf, Hobj.
    rewrite (wrap64_small (offset + length)) by lia.
    rewrite wrap64_small by lia.
    unfold selectRange. destruct (Z.ltb_spec offset 0); [lia|].
    destruct (Z.ltb_spec (offset + length - 1) offset); [lia|].
    cbn [orb]. destruct (Z.leb_spec (len (o_body o)) offset); [lia|].
    replace (offset + length - 1 - offset + 1) with length by lia. done.
Qed.

Lemma GetFilePartially_inside_witness :
  Local.GetFilePartially {[ "p" := list_byte_of_string "hello" ]} "p" 2 3
    = Return (Some (list_byte_of_string "llo"), None) ∧
  (S3.GetFilePartially
     (setObjects emptyService
        {[ "p" := mkObject (list_byte_of_string "hello") ∅ ]}) "p" 1 3).2
    = (Some (list_byte_of_string "ell"), None).
Proof.
  pose proof (GetFilePartially_inside
                {[ "p" := list_byte_of_string "hello" ]} emptyService
                "p" 2 3) as [Hl _].
  pose proof (GetFilePartially_inside ∅
                (setObjects emptyService
                   {[ "p" := mkObject (list_byte_of_string "hello") ∅ ]})
                "p" 1 3) as [_ Hs].
  split.
  - apply (Hl (list_byte_of_string "hello"));
      [vm_compute; reflexivity | lia | lia | vm_compute; discriminate].
  - apply (Hs (mkObject (list_byte_of_string "hello") ∅));
      [vm_compute; reflexivity | intros c; reflexivity | lia | lia
       | vm_compute; discriminate | vm_compute; reflexivity].
Defined.

(** X12: a partial read that runs past the end of the object: the local
    backend returns as many bytes as were asked for, the rest of the file
    followed by zero bytes, for a length that [make] can allocate; the S3
    backend returns the rest of the object and no more. *)
Theorem GetFilePartially_past_end (fs : FS) (s : Service) (path : string)
    (offset length : Z) :
  (∀ content, fs !! path = Some content →
     0 ≤ offset < len content → len content < offset + length →
     length ≤ maxAlloc →
     Local.GetFilePartially fs path offset length
     = Return (Some (dropZ offset content
                     ++ zeros (offset + length - len content)), None)) ∧
  (∀ o, objects s !! path = Some o → noFault s →
     0 ≤ offset < len (o_body o) → len (o_body o) < offset + length →
     offset + length < 2 ^ 63 →
     (S3.GetFilePartially s path offset length).2
     = (Some (dropZ offset (o_body o)), None)).
Proof.
  split.
  - intros content Hc Ho Hpast _.
    assert (content ≠ []) as Hne.
    { intros ->. unfold len in Ho. simpl in Ho. lia. }
    rewrite (Local_GetFilePartially_read fs path content) by (done || lia).
    rewrite takeZ_all by (rewrite len_dropZ by lia; lia).
    rewrite len_dropZ by lia.
    by replace (length - (len content - offset))
      with (offset + length - len content) by lia.
  - intros o Hobj Hf Ho Hpast Hsz.
    unfold S3.GetFilePartially, S3.GetFilePartiallyWithContext,
      S3.FileReaderWithContext, client_GetObject, request.
    cbn [ctx_done Background].
    destruct (Z.ltb_spec 0 length); [|lia].
    cbn [fault logCall objects]. rewrite Hf, Hobj.
    rewrite (wrap64_small (offset + length)) by lia.
    rewrite wrap64_small by lia.
    unfold selectRange. destruct (Z.ltb_spec offset 0); [lia|].
    destruct (Z.ltb_spec (offset + length - 1) offset); [lia|].
    cbn [orb]. destruct (Z.leb_spec (len (o_body o)) offset); [lia|].
    rewrite takeZ_all by (rewrite len_dropZ by lia; lia). done.
Qed.

Lemma GetFilePartially_past_end_witness :
  Local.GetFilePartially {[ "p" := list_byte_of_string "hello" ]} "p" 3 4
    = Return (Some (list_byte_of_string "lo" ++ [x00; x00]), None) ∧
  (S3.GetFilePartially
     (setObjects emptyService
        {[ "p" := mkObject (list_byte_of_string "hello") ∅ ]}) "p" 3 4).2
    = (Some (list_byte_of_string "lo"), None).
Proof.
  pose proof (GetFilePartially_past_end
                {[ "p" := list_byte_of_string "hello" ]} emptyService
                "p" 3 4) as [Hl _].
  pose proof (GetFilePartially_past_end ∅
                (setObjects emptyService
                   {[ "p" := mkObject (list_byte_of_string "hello") ∅ ]})
                "p" 3 4) as [_ Hs].
  split.
  - apply (Hl (list_byte_of_string "hello"));
      [vm_compute; reflexivity | vm_compute; split; [discriminate|reflexivity]
       | vm_compute; reflexivity | vm_compute; discriminate].
  - apply (Hs (mkObject (list_byte_of_string "hello") ∅));
      [vm_compute; reflexivity | intros c; reflexivity
       | vm_compute; split; [discriminate|reflexivity]
       | vm_compute; reflexivity | vm_compute; reflexivity].
Defined.

(** X13: on the local backend a partial read "to the end" (negative length)
    from an offset beyond the end of a file that is not empty panics: the
    length computed for the buffer, size minus offset, is negative. *)
Theorem Local_GetFilePartially_panics (fs : FS) (path : string)
    (content : list byte) (offset length : Z) :
  fs !! path = Some content → content ≠ [] →
  len content < offset < 2 ^ 63 → length < 0 →
  Local.GetFilePartially fs path offset length
  = Panic "makeslice: len out of range".
Proof.
  intros Hc Hne Ho Hl. unfold Local.GetFilePartially.
  assert (Local.IsExist fs path = true) as ->
    by (apply Local_IsExist_lookup; eauto).
  cbn [negb]. unfold os_Open. rewrite Hc.
  destruct (Z.ltb_spec length 0); [|lia].
  destruct (Local_Stat_present fs path content Hc) as [m ->].
  cbn [fi_size]. pose proof (len_nonneg content).
  rewrite wrap64_small by lia. unfold Local.readInto.
  destruct (Z.ltb_spec (len content - offset) 0); [done|lia].
Qed.

Lemma Local_GetFilePartially_panics_witness :
  Local.GetFilePartially {[ "p" := list_byte_of_string "hello" ]} "p" 7 (-1)
  = Panic "makeslice: len out of range".
Proof.
  apply (Local_GetFilePartially_panics _ _ (list_byte_of_string "hello"));
    [vm_compute; reflexivity | discriminate
     | vm_compute; split; reflexivity | lia].
Defined.

(** X14: on the local backend [Stat] succeeds exactly for the paths that are
    present, and fails with [ErrFileNotFound] for the others; so a file that
    is present and empty has a [Stat] while [IsExist] answers false and
    [GetFile] returns nil for it. *)
Theorem Local_Stat_present_iff (fs : FS) (path : string) :
  (statErr (Local.Stat fs path) = None ↔ is_Some (fs !! path)) ∧
  (fs !! path = None → statErr (Local.Stat fs path) = Some ErrFileNotFound) ∧
  (fs !! path = Some [] →
     statErr (Local.Stat fs path) = None ∧
     Local.IsExist fs path = false ∧
     Local.GetFile fs path = (None, None)).
Proof.
  assert (Hnone : fs !! path = None →
                  statErr (Local.Stat fs path) = Some ErrFileNotFound).
  { intros Hp. unfold Local.Stat, os_Stat. by rewrite Hp. }
  split; [|split; [done|]].
  - split.
    + intros He. destruct (fs !! path) eqn:Hp; [eauto|].
      rewrite Hnone in He by done. done.
    + intros [content Hc].
      destruct (Local_Stat_present fs path content Hc) as [m ->]. done.
  - intros Hc. destruct (Local_Stat_present fs path [] Hc) as [m ->].
    split; [done|]. split; [apply Local_IsExist_false; auto|].
    by rewrite Local_GetFile_lookup, Hc.
Qed.

Lemma Local_Stat_present_iff_witness :
  statErr (Local.Stat {[ "a" := [x61]; "e" := [] ]} "a") = None ∧
  statErr (Local.Stat {[ "a" := [x61]; "e" := [] ]} "z")
  = Some ErrFileNotFound ∧
  statErr (Local.Stat {[ "a" := [x61]; "e" := [] ]} "e") = None ∧
  Local.IsExist {[ "a" := [x61]; "e" := [] ]} "e" = false ∧
  Local.GetFile {[ "a" := [x61]; "e" := [] ]} "e" = (None, None).
Proof.
  pose proof (Local_Stat_present_iff {[ "a" := [x61]; "e" := [] ]} "a")
    as (Ha & _ & _).
  pose proof (Local_Stat_present_iff {[ "a" := [x61]; "e" := [] ]} "z")
    as (_ & Hz & _).
  pose proof (Local_Stat_present_iff {[ "a" := [x61]; "e" := [] ]} "e")
    as (_ & _ & He).
  split; [|split].
  - apply Ha. eexists. vm_compute. reflexivity.
  - apply Hz. vm_compute. reflexivity.
  - apply He. vm_compute. reflexivity.
Defined.

(** ** Objects of the S3 backend *)

(** X15: [IsExist] of the S3 backend answers true exactly when the request
    goes through and finds an object at the path, whatever its size, also
    an empty one; a request that fails reads as an absent object. *)
Theorem S3_IsExist_iff (s : Service) (path : string) :
  (S3.IsExist s path).2 = true ↔
  fault s (HeadObject path) = None ∧ is_Some (objects s !! path).
Proof.
  unfold S3.IsExist, client_HeadObject, request.
  cbn [ctx_done Background fault logCall objects].
  destruct (fault s (HeadObject path)) as [e|]; cbn [snd].
  - split; [done|]. by intros [? _].
  - destruct (objects s !! path) as [o|]; cbn [snd].
    + split; [eauto|done].
    + split; [done|]. by intros [_ [? ?]].
Qed.

Lemma S3_IsExist_iff_witness :
  (S3.IsExist bobBucket "src").2 = true ∧
  ¬ (S3.IsExist bobBucket "other").2 = true.
Proof.
  split.
  - apply (S3_IsExist_iff bobBucket "src"). split; [reflexivity|].
    eexists. vm_compute. reflexivity.
  - intros Ht. apply (S3_IsExist_iff bobBucket "other") in Ht.
    destruct Ht as [_ [o Ho]]. vm_compute in Ho. discriminate.
Defined.

(** X16: on the S3 backend, when the service answers, [CreateFile] with
    metadata that can travel as header fields (the keys are header tokens,
    no two of them alike but for case; the values are printable ASCII, not
    empty and without white space around them; keys and values together
    take at most 2 KB) returns nil, and [Stat] then
    reports the size of the content and the entries that were passed, each
    under its key in canonical case (owner comes back as Owner), with none
    of the metadata the object had before; [GetFile] returns the content,
    when that is not empty.  With a key that is no header token (one with
    '=', say) the call fails before anything is sent, and nothing is
    written. *)
Theorem S3_CreateFile_then_read `{RangeOrder} (s : Service) (path : string)
    (file : list byte) (ttl : option Z) (meta : option (gmap string string)) :
  noFault s →
  (sendable (default ∅ meta) →
     (S3.CreateFile s path file ttl meta).2 = None ∧
     (S3.Stat (S3.CreateFile s path file ttl meta).1 path).2
     = (Some (mkFileInfo path (len file) false),
        Some (canonKeys (default ∅ meta)), None) ∧
     (∀ k' v, canonKeys (default ∅ meta) !! k' = Some v ↔
        ∃ k, k' = canonKey k ∧ default ∅ meta !! k = Some v) ∧
     (file ≠ [] →
      (S3.GetFile (S3.CreateFile s path file ttl meta).1 path).2
      = (Some file, None))) ∧
  (∀ k v, default ∅ meta !! k = Some v →
     allBytes validHeaderFieldByte (TrimSpace k) = false →
     S3.CreateFile s path file ttl meta = (s, Some (AwsErr "RequestError"))).
Proof.
  intros Hf. split.
  - intros Hs.
    destruct (sendMetadata_sendable _ Hs) as (received & Hr & Hback & Hsize).
    unfold S3.CreateFile, S3.CreateFileWithContext,
      client_PutObjectWithContext, S3.StringMap.
    rewrite Hr. unfold client_PutObject, request.
    cbn [ctx_done Background fault logCall]. rewrite Hf.
    rewrite bool_decide_eq_false_2 by lia.
    cbn [fst snd S3.errOf]. split; [done|]. split; [|split].
    + rewrite S3_Stat_eq by exact Hf. cbn [setObjects objects].
      rewrite lookup_insert_eq. cbn [o_body o_meta]. by rewrite Hback.
    + intros k' v. apply canonKeys_lookup, Hs.
    + intros Hne. unfold S3.GetFile, S3.GetFileWithContext,
        S3.FileReaderWithContext, client_GetObject, request.
      cbn [ctx_done Background fault logCall setObjects objects].
      change (0 <? 0) with false. cbn iota.
      cbn [fault logCall setObjects objects].
      rewrite Hf, lookup_insert_eq. cbn [o_body selectRange].
      change (0 <? 0) with false. cbn iota.
      destruct (Z.leb_spec (len file) 0) as [Hz|_].
      { pose proof (len_nonneg file).
        assert (len file = 0) as Hz' by lia. by apply len_nil_iff in Hz'. }
      by rewrite dropZ_0.
  - intros k v Hk Hbad.
    unfold S3.CreateFile, S3.CreateFileWithContext,
      client_PutObjectWithContext, S3.StringMap.
    by rewrite (sendMetadata_refused _ k v Hk Hbad).
Qed.

Lemma S3_CreateFile_then_read_witness :
  (S3.Stat (@S3.CreateFile listOrder bobBucket "src"
              (list_byte_of_string "new") None
              (Some {[ "owner" := "eve" ]})).1 "src").2
  = (Some (mkFileInfo "src" 3 false), Some {[ "Owner" := "eve" ]}, None) ∧
  (S3.GetFile (@S3.CreateFile listOrder bobBucket "src"
                 (list_byte_of_string "new") None
                 (Some {[ "owner" := "eve" ]})).1 "src").2
  = (Some (list_byte_of_string "new"), None) ∧
  @S3.CreateFile listOrder bobBucket "src" (list_byte_of_string "new") None
    (Some {[ "k=1" := "v" ]})
  = (bobBucket, Some (AwsErr "RequestError")).
Proof.
  destruct (@S3_CreateFile_then_read listOrder bobBucket "src"
              (list_byte_of_string "new") None (Some {[ "owner" := "eve" ]}))
    as [Hok _]; [intros c; reflexivity|].
  destruct (@S3_CreateFile_then_read listOrder bobBucket "src"
              (list_byte_of_string "new") None (Some {[ "k=1" := "v" ]}))
    as [_ Hbad]; [intros c; reflexivity|].
  destruct Hok as (_ & Hstat & _ & Hget).
  { split; [|split].
    - apply (bool_decide_unpack _). vm_compute. exact I.
    - intros k1 k2 [v1 H1] [v2 H2] _.
      cbn [default from_option id] in H1, H2.
      apply lookup_singleton_Some in H1 as [<- _].
      by apply lookup_singleton_Some in H2 as [<- _].
    - vm_compute. lia. }
  split; [exact Hstat|]. split; [apply Hget; discriminate|].
  apply (Hbad "k=1" "v"); reflexivity.
Defined.

(** X17: [MkdirAll] of the S3 backend puts an empty object without metadata
    at the path; an object that was there is replaced, its content and its
    metadata are lost, and every other object stays as it was. *)
Theorem S3_MkdirAll_overwrites (s : Service) (path : string) :
  noFault s →
  (S3Ops.MkdirAll s path).2 = None ∧
  objects (S3Ops.MkdirAll s path).1 !! path = Some (mkObject [] ∅) ∧
  (∀ q, q ≠ path →
     objects (S3Ops.MkdirAll s path).1 !! q = objects s !! q).
Proof.
  intros Hf. unfold S3Ops.MkdirAll, S3Ops.MkdirAllWithContext,
    client_PutObject, request.
  cbn [ctx_done Background fault logCall]. rewrite Hf.
  cbn [S3.StringMap default from_option id]. rewrite metadataSize_empty.
  rewrite bool_decide_eq_false_2 by (unfold maxMetadataSize; lia).
  cbn [fst snd S3.errOf setObjects objects logCall].
  split; [done|]. split; [apply lookup_insert_eq|].
  intros q Hq. by apply lookup_insert_ne.
Qed.

Lemma S3_MkdirAll_overwrites_witness :
  objects (S3Ops.MkdirAll bobBucket "src").1 !! "src" = Some (mkObject [] ∅).
Proof.
  destruct (S3_MkdirAll_overwrites bobBucket "src") as (_ & H & _);
    [intros c; reflexivity | exact H].
Defined.

(** ** Failures while streaming into the bucket *)

Lemma CreateMultipartUpload_ok_at ctx s path :
  ctx_done ctx = false → fault s (CreateMultipartUpload path) = None →
  client_CreateMultipartUpload ctx s path
  = (bumpUploadId
       (setUploads (logCall s (CreateMultipartUpload path))
          (<[nextUploadId s := mkUpload path ∅]> (uploads s))),
     OK (mkCreateMultipartUploadOutput (S3Bucket s) path (nextUploadId s))).
Proof.
  intros Hctx Hf. unfold client_CreateMultipartUpload, request.
  rewrite Hctx. cbn [fault logCall]. by rewrite Hf.
Qed.

Lemma UploadPart_ok_at ctx s id pn c u :
  ctx_done ctx = false → fault s (UploadPart id pn c) = None →
  uploads s !! id = Some u → 1 ≤ pn ≤ maxPartNumber →
  client_UploadPart ctx s id pn c
  = (setUploads (logCall s (UploadPart id pn c))
       (<[id := mkUpload (u_key u) (<[pn := (etagOf s c, c)]> (u_parts u))]>
          (uploads s)),
     OK (etagOf s c)).
Proof.
  intros Hctx Hf Hu Hpn. unfold client_UploadPart, request.
  rewrite Hctx. cbn [fault logCall uploads]. rewrite Hf, Hu.
  destruct (Z.ltb_spec pn 1); [lia|].
  destruct (Z.ltb_spec maxPartNumber pn); [lia|]. done.
Qed.

(** The loop when the part after the parts [pre] is refused. *)
Lemma uploadLoop_part_failure ctx path resp c post e :
  ∀ pre fuel stream d s pn parts u,
  fills S3.bufSize stream d →
  chunks S3.bufSize d = pre ++ c :: post →
  ctx_done ctx = false → uploads s !! UploadId resp = Some u →
  1 ≤ pn → pn + len pre ≤ maxPartNumber →
  (∀ i c', pn ≤ i < pn + len pre →
     fault s (UploadPart (UploadId resp) i c') = None) →
  fault s (UploadPart (UploadId resp) (pn + len pre) c) = Some e →
  (length pre < fuel)%nat →
  ∃ s' stream',
    S3.uploadLoop fuel ctx s stream path resp pn parts
    = Some (s', stream',
            S3.Returned
              (Some (default e
                       (fault s (AbortMultipartUpload (UploadId resp)))))) ∧
    objects s' = objects s ∧
    calls s'
    = calls s ++ partCalls (UploadId resp) pn pre ++
      [UploadPart (UploadId resp) (pn + len pre) c;
       AbortMultipartUpload (UploadId resp)] ∧
    (fault s (AbortMultipartUpload (UploadId resp)) = None →
     uploads s' = delete (UploadId resp) (uploads s)).
Proof.
  assert (Hbuf : 0 < S3.bufSize) by done.
  induction pre as [|c0 pre IH];
    intros fuel stream d s pn parts u Hfill Hch Hctx Hu Hpn Hmax Hok Hbad Hfuel;
    (destruct fuel as [|fuel]; [simpl in Hfuel; lia|]);
    (inversion Hfill as [? err stream' Hread Herr
                        |? ? err stream' Hd Hread Herr Hrest]; subst;
     [rewrite chunks_nil in Hch; by apply app_cons_not_nil in Hch|]);
    rewrite chunks_cons in Hch by done;
    injection Hch as Hc0 Hch;
    assert (0 < len d)
      by (destruct d; [done|]; rewrite len_cons; pose proof (len_nonneg d); lia);
    cbn [S3.uploadLoop]; rewrite Hread;
    rewrite bool_decide_eq_false_2 by (intros [? ?]; destruct Herr; done);
    (destruct (Z.eqb_spec (len (takeZ S3.bufSize d)) 0) as [Hz|_];
     [rewrite len_takeZ in Hz by lia; lia|]).
  - (* the first part is refused *)
    change (len (@nil (list byte))) with 0 in *. rewrite Z.add_0_r in *.
    rewrite Hc0.
    unfold client_UploadPart at 1, request at 1. rewrite Hctx.
    cbn [fault logCall]. rewrite Hbad.
    unfold S3.abortMultipartUpload, client_AbortMultipartUpload, request.
    rewrite Hctx. cbn [fault logCall uploads].
    destruct (fault s (AbortMultipartUpload (UploadId resp))) as [e'|].
    + eexists _, stream'. split; [reflexivity|].
      cbn [objects calls logCall partCalls app]. rewrite <- app_assoc.
      repeat split; done.
    + rewrite Hu. eexists _, stream'. split; [reflexivity|].
      cbn [objects calls uploads setUploads logCall partCalls app].
      rewrite <- app_assoc. repeat split; done.
  - (* a part goes through *)
    rewrite len_cons in Hmax, Hok, Hbad. pose proof (len_nonneg pre).
    rewrite Hc0.
    rewrite (UploadPart_ok_at ctx s _ pn c0 u)
      by (done || (apply Hok; lia) || lia).
    rewrite wrap64_small by (unfold maxPartNumber in Hmax; lia).
    set (u1 := mkUpload (u_key u) (<[pn := (etagOf s c0, c0)]> (u_parts u))).
    set (s1 := setUploads (logCall s (UploadPart (UploadId resp) pn c0))
                 (<[UploadId resp := u1]> (uploads s))).
    destruct (IH fuel stream' (dropZ S3.bufSize d) s1 (pn + 1)
                (parts ++ [mkCompletedPart (etagOf s c0) pn]) u1)
      as (s' & stream'' & Hloop & Hobj & Hcalls & Hup);
      [done | done | done | apply lookup_insert_eq | lia | lia | | | simpl in Hfuel; lia |].
    { intros i c' Hi. apply (Hok i c'). lia. }
    { change (fault s1) with (fault s).
      by replace (pn + 1 + len pre) with (pn + (1 + len pre)) by lia. }
    exists s', stream''. split; [exact Hloop|].
    split; [by rewrite Hobj|]. split.
    + rewrite Hcalls. subst s1. cbn [calls setUploads logCall partCalls].
      rewrite <- !app_assoc, len_cons. cbn [app].
      by replace (pn + 1 + len pre) with (pn + (1 + len pre)) by lia.
    + intros Hab. rewrite (Hup Hab). subst s1. cbn [uploads setUploads].
      apply delete_insert_eq.
Qed.

(** X18: when the service refuses a part, whichever it is, [StreamToFile]
    asks to abort the upload and returns the error of the part, or the error
    of the abort when that fails as well; the parts before it were uploaded
    in order, no object was written, and once the abort has gone through
    the upload is no longer open. *)
Theorem StreamToFile_part_failure (fuel : nat) (ctx : Context) (s : Service)
    (stream : Reader) (d : list byte) (path : string) (ttl : option Z)
    (pre post : list (list byte)) (c : list byte) (e : error) :
  fills S3.bufSize stream d → ctx_done ctx = false →
  chunks S3.bufSize d = pre ++ c :: post →
  len pre < maxPartNumber →
  fault s (CreateMultipartUpload path) = None →
  (∀ i c', 1 ≤ i < 1 + len pre →
     fault s (UploadPart (nextUploadId s) i c') = None) →
  fault s (UploadPart (nextUploadId s) (1 + len pre) c) = Some e →
  (length pre < fuel)%nat →
  ∃ s' stream',
    S3.StreamToFileWithContext fuel ctx s stream path ttl
    = Some (s', stream',
            Some (default e
                    (fault s (AbortMultipartUpload (nextUploadId s))))) ∧
    objects s' = objects s ∧
    calls s'
    = calls s ++
      CreateMultipartUpload path
      :: partCalls (nextUploadId s) 1 pre ++
      [UploadPart (nextUploadId s) (1 + len pre) c;
       AbortMultipartUpload (nextUploadId s)] ∧
    (fault s (AbortMultipartUpload (nextUploadId s)) = None →
     uploads s' = delete (nextUploadId s) (uploads s)).
Proof.
  intros Hfill Hctx Hch Hlen Hcreate Hok Hbad Hfuel.
  unfold S3.StreamToFileWithContext.
  rewrite CreateMultipartUpload_ok_at by done.
  set (id := nextUploadId s) in *.
  set (u0 := mkUpload path ∅).
  set (s1 := bumpUploadId _).
  set (resp := mkCreateMultipartUploadOutput _ _ _).
  destruct (uploadLoop_part_failure ctx path resp c post e pre fuel stream d
              s1 1 [] u0)
    as (s' & stream' & Hloop & Hobj & Hcalls & Hup);
    [done | done | done | apply lookup_insert_eq | lia | lia | done | done
     | done |].
  rewrite Hloop. exists s', stream'. split; [done|].
  split; [by rewrite Hobj|]. split.
  - rewrite Hcalls.
    change (calls s1) with (calls s ++ [CreateMultipartUpload path]).
    by rewrite <- app_assoc.
  - intros Hab. rewrite (Hup Hab).
    change (uploads s1) with (<[id := u0]> (uploads s)).
    apply delete_insert_eq.
Qed.

Lemma StreamToFile_part_failure_witness :
  ∃ s' stream',
    S3.StreamToFileWithContext 1 Background noUploadService
      (bytesReader [x61; x62]) "k" None
    = Some (s', stream',
            Some (default (ErrOther "upload failed")
                    (fault noUploadService (AbortMultipartUpload 0)))) ∧
    objects s' = objects noUploadService ∧
    calls s'
    = calls noUploadService ++
      CreateMultipartUpload "k"
      :: partCalls 0 1 [] ++
      [UploadPart 0 (1 + len (@nil (list byte))) [x61; x62];
       AbortMultipartUpload 0] ∧
    (fault noUploadService (AbortMultipartUpload 0) = None →
     uploads s' = delete 0 (uploads noUploadService)).
Proof.
  apply (StreamToFile_part_failure 1 Background noUploadService
           (bytesReader [x61; x62]) [x61; x62] "k" None [] []
           [x61; x62] (ErrOther "upload failed")).
  - apply fills_bytesReader. reflexivity.
  - reflexivity.
  - vm_compute. reflexivity.
  - reflexivity.
  - reflexivity.
  - intros i c' Hi. change (len (@nil (list byte))) with 0 in Hi. lia.
  - reflexivity.
  - simpl. lia.
Defined.

Lemma afterParts_spec_at id cs : ∀ s pn u,
  (∀ i c, fault s (UploadPart id i c) = None) →
  uploads s !! id = Some u →
  1 ≤ pn → pn + len cs ≤ maxPartNumber + 1 →
  objects (afterParts s id pn cs) = objects s ∧
  uploads (afterParts s id pn cs)
  = <[id := mkUpload (u_key u) (partsMap (u_parts u) (etagOf s) pn cs)]>
      (uploads s) ∧
  calls (afterParts s id pn cs) = calls s ++ partCalls id pn cs ∧
  etagOf (afterParts s id pn cs) = etagOf s ∧
  fault (afterParts s id pn cs) = fault s.
Proof.
  induction cs as [|c cs IH]; intros s pn u Hf Hu Hpn Hmax.
  - cbn [afterParts partsMap partCalls]. rewrite app_nil_r.
    repeat split; try done. destruct u. symmetry. by apply insert_id.
  - rewrite len_cons in Hmax. pose proof (len_nonneg cs).
    cbn [afterParts].
    rewrite (UploadPart_ok_at Background s id pn c u) by (done || lia).
    cbn [fst].
    set (u1 := mkUpload (u_key u) (<[pn := (etagOf s c, c)]> (u_parts u))).
    set (s1 := setUploads (logCall s (UploadPart id pn c))
                 (<[id := u1]> (uploads s))).
    destruct (IH s1 (pn + 1) u1) as (Ho & Hup & Hc & He & Hfa);
      [done | apply lookup_insert_eq | lia | lia |].
    rewrite Ho, Hup, Hc, He, Hfa. subst s1 u1.
    cbn [objects uploads calls etagOf fault setUploads logCall u_key u_parts
         partsMap partCalls].
    rewrite insert_insert_eq, <- app_assoc. done.
Qed.

Lemma uploadLoop_fills_at ctx path resp : ∀ fuel stream d s pn parts u,
  fills S3.bufSize stream d →
  ctx_done ctx = false →
  (∀ i c, fault s (UploadPart (UploadId resp) i c) = None) →
  uploads s !! UploadId resp = Some u →
  1 ≤ pn → pn + len (chunks S3.bufSize d) ≤ maxPartNumber + 1 →
  (length (chunks S3.bufSize d) < fuel)%nat →
  ∃ stream',
    S3.uploadLoop fuel ctx s stream path resp pn parts
    = Some (afterParts s (UploadId resp) pn (chunks S3.bufSize d), stream',
            S3.Broke
              (parts ++ partTags (etagOf s) pn (chunks S3.bufSize d))).
Proof.
  assert (Hbuf : 0 < S3.bufSize) by done.
  induction fuel as [|fuel IH];
    intros stream d s pn parts u Hfill Hctx Hf Hu Hpn Hmax Hfuel; [lia|].
  inversion Hfill as [? err stream' Hread Herr
                     |? ? err stream' Hd Hread Herr Hrest]; subst.
  - exists stream'. cbn [S3.uploadLoop]. rewrite Hread.
    rewrite bool_decide_eq_false_2 by (intros [? ?]; destruct Herr; done).
    rewrite chunks_nil. cbn [afterParts partTags]. by rewrite app_nil_r.
  - rewrite chunks_cons in Hmax, Hfuel |- * by done.
    rewrite len_cons in Hmax. cbn [length] in Hfuel.
    pose proof (len_nonneg (chunks S3.bufSize (dropZ S3.bufSize d))).
    assert (0 < len d).
    { destruct d; [done|]. rewrite len_cons. pose proof (len_nonneg d). lia. }
    edestruct (IH stream' (dropZ S3.bufSize d)
                 (setUploads (logCall s (UploadPart (UploadId resp) pn
                                           (takeZ S3.bufSize d)))
                    (<[UploadId resp :=
                         mkUpload (u_key u)
                           (<[pn := (etagOf s (takeZ S3.bufSize d),
                                     takeZ S3.bufSize d)]> (u_parts u))]>
                       (uploads s)))
                 (pn + 1)
                 (parts ++ [mkCompletedPart (etagOf s (takeZ S3.bufSize d)) pn]))
      as [stream'' Hloop];
      [done | done | done | apply lookup_insert_eq | lia | lia | lia |].
    exists stream''. cbn [S3.uploadLoop]. rewrite Hread.
    rewrite bool_decide_eq_false_2 by (intros [? ?]; destruct Herr; done).
    destruct (Z.eqb_spec (len (takeZ S3.bufSize d)) 0) as [Hz|_].
    { rewrite len_takeZ in Hz by lia. lia. }
    rewrite (UploadPart_ok_at ctx s _ pn _ u) by (done || lia).
    rewrite wrap64_small by (unfold maxPartNumber in Hmax; lia).
    rewrite Hloop. cbn [afterParts partTags].
    rewrite (UploadPart_ok_at Background s _ pn _ u) by (done || lia).
    cbn [fst etagOf setUploads logCall]. by rewrite <- app_assoc.
Qed.

(** X19: when the request that finalizes the upload fails, [StreamToFile]
    returns its error and does nothing more: all parts were uploaded, no
    object was written, no request to abort was made, and the upload stays
    open with its parts. *)
Theorem StreamToFile_complete_failure (fuel : nat) (ctx : Context)
    (s : Service) (stream : Reader) (d : list byte) (path : string)
    (ttl : option Z) (e : error) :
  fills S3.bufSize stream d → ctx_done ctx = false →
  len d ≤ maxPartNumber * S3.bufSize →
  fault s (CreateMultipartUpload path) = None →
  (∀ i c, fault s (UploadPart (nextUploadId s) i c) = None) →
  fault s (CompleteMultipartUpload (nextUploadId s)
             (partTags (etagOf s) 1 (chunks S3.bufSize d))) = Some e →
  (length (chunks S3.bufSize d) < fuel)%nat →
  ∃ s' stream',
    S3.StreamToFileWithContext fuel ctx s stream path ttl
    = Some (s', stream', Some e) ∧
    objects s' = objects s ∧
    calls s'
    = calls s ++
      CreateMultipartUpload path
      :: partCalls (nextUploadId s) 1 (chunks S3.bufSize d) ++
      [CompleteMultipartUpload (nextUploadId s)
         (partTags (etagOf s) 1 (chunks S3.bufSize d))] ∧
    uploads s' !! nextUploadId s
    = Some (mkUpload path (partsMap ∅ (etagOf s) 1 (chunks S3.bufSize d))).
Proof.
  intros Hfill Hctx Hsize Hcreate Hparts Hbad Hfuel.
  pose proof (chunks_count_bound d Hsize) as Hcount.
  unfold S3.StreamToFileWithContext.
  rewrite CreateMultipartUpload_ok_at by done.
  set (id := nextUploadId s) in *.
  set (u0 := mkUpload path ∅).
  set (s1 := bumpUploadId _).
  set (resp := mkCreateMultipartUploadOutput _ _ _).
  destruct (uploadLoop_fills_at ctx path resp fuel stream d s1 1 [] u0)
    as [stream' Hloop];
    [done | done | done | apply lookup_insert_eq | lia | lia | done |].
  destruct (afterParts_spec_at id (chunks S3.bufSize d) s1 1 u0)
    as (Hobj & Hup & Hcalls & Hetag & Hfault);
    [done | apply lookup_insert_eq | lia | lia |].
  rewrite Hloop. cbn [app].
  unfold S3.completeMultipartUpload, client_CompleteMultipartUpload, request.
  rewrite Hctx. cbn [fault logCall].
  change (UploadId resp) with id. change (etagOf s1) with (etagOf s).
  rewrite Hfault. change (fault s1) with (fault s). rewrite Hbad.
  eexists _, stream'. split; [reflexivity|].
  cbn [objects calls uploads logCall]. rewrite Hobj, Hcalls, Hup.
  change (calls s1) with (calls s ++ [CreateMultipartUpload path]).
  change (etagOf s1) with (etagOf s).
  rewrite <- !app_assoc, lookup_insert_eq. done.
Qed.

Lemma StreamToFile_complete_failure_witness :
  ∃ s' stream',
    S3.StreamToFileWithContext 2 Background noCompleteService
      (bytesReader [x61; x62]) "k" None
    = Some (s', stream', Some (ErrOther "complete failed")) ∧
    objects s' = objects noCompleteService ∧
    calls s'
    = calls noCompleteService ++
      CreateMultipartUpload "k"
      :: partCalls 0 1 (chunks S3.bufSize [x61; x62]) ++
      [CompleteMultipartUpload 0
         (partTags string_of_list_byte 1 (chunks S3.bufSize [x61; x62]))] ∧
    uploads s' !! 0
    = Some (mkUpload "k"
              (partsMap ∅ string_of_list_byte 1
                 (chunks S3.bufSize [x61; x62]))).
Proof.
  apply (StreamToFile_complete_failure 2 Background noCompleteService
           (bytesReader [x61; x62]) [x61; x62] "k" None
           (ErrOther "complete failed")).
  - apply fills_bytesReader. reflexivity.
  - reflexivity.
  - vm_compute. discriminate.
  - reflexivity.
  - intros i c. reflexivity.
  - reflexivity.
  - vm_compute. lia.
Defined.

(** X24: [StreamToFile] of the S3 backend on a source that is empty, its
    first read handing over no bytes, with [io.EOF] or with no error: an
    upload is opened and then finalized with no parts, which the service
    refuses; the call returns that error, no object is written, no request
    to abort is made and the upload stays open. *)
Theorem StreamToFile_empty_source (fuel : nat) (ctx : Context) (s : Service)
    (stream stream' : Reader) (e : option error) (path : string)
    (ttl : option Z) :
  Read stream S3.bufSize = ([], e, stream') → e = None ∨ e = Some EOF →
  ctx_done ctx = false → noFault s → (0 < fuel)%nat →
  ∃ s',
    S3.StreamToFileWithContext fuel ctx s stream path ttl
    = Some (s', stream', Some (AwsErr "MalformedXML")) ∧
    calls s'
    = calls s ++ [CreateMultipartUpload path;
                  CompleteMultipartUpload (nextUploadId s) []] ∧
    objects s' = objects s ∧
    uploads s' = <[nextUploadId s := mkUpload path ∅]> (uploads s).
Proof.
  intros Hread He Hctx Hf Hfuel.
  unfold S3.StreamToFileWithContext.
  rewrite CreateMultipartUpload_ok_at by done.
  destruct fuel as [|fuel]; [lia|]. cbn [S3.uploadLoop]. rewrite Hread.
  rewrite bool_decide_eq_false_2 by (intros [? ?]; destruct He; done).
  change (len [] =? 0) with true. cbn iota.
  unfold S3.completeMultipartUpload, client_CompleteMultipartUpload, request.
  rewrite Hctx. cbn [fault logCall uploads bumpUploadId setUploads UploadId].
  rewrite Hf, lookup_insert_eq. eexists. split; [reflexivity|].
  cbn [calls objects uploads logCall bumpUploadId setUploads].
  by rewrite <- app_assoc.
Qed.

Lemma StreamToFile_empty_source_witness :
  ∃ s',
    S3.StreamToFileWithContext 1 Background emptyService (bytesReader [])
      "k" None
    = Some (s', bytesReader [], Some (AwsErr "MalformedXML")) ∧
    calls s'
    = calls emptyService ++ [CreateMultipartUpload "k";
                             CompleteMultipartUpload 0 []] ∧
    objects s' = objects emptyService ∧
    uploads s' = <[0 := mkUpload "k" ∅]> (uploads emptyService).
Proof.
  apply (StreamToFile_empty_source 1 Background emptyService (bytesReader [])
           (bytesReader []) (Some EOF) "k" None).
  - reflexivity.
  - by right.
  - reflexivity.
  - intros c. reflexivity.
  - lia.
Defined.

(** ** Metadata on the WebDav backend *)

(** X20: on the WebDav backend [CreateFile] with content and metadata whose
    keys and values contain neither '=' nor a newline writes both: [Stat] of
    the path then succeeds and reports exactly this mapping, and [GetFile]
    returns the content, when that is not empty. *)
Theorem WebDav_CreateFile_roundtrip `{RangeOrder} (fs : FS) (path : string)
    (file : list byte) (ttl : option Z) (m : gmap string string) :
  cleanMeta m → file ≠ [] →
  statErr (WebDav.Stat (WebDav.CreateFile fs path file ttl (Some m)).1 path)
    = None ∧
  statMeta (WebDav.Stat (WebDav.CreateFile fs path file ttl (Some m)).1 path)
    = m ∧
  WebDav.GetFile (WebDav.CreateFile fs path file ttl (Some m)).1 path
    = (Some file, None).
Proof.
  intros Hc Hne.
  destruct (WebDav_CreateFile_Stat fs path file ttl m Hc) as [He Hm].
  split; [exact He|]. split; [exact Hm|].
  destruct (CreateFile_then_GetFile_at fs path file ttl (Some m)) as [_ Hg].
  rewrite Hg. by rewrite decide_False.
Qed.

Lemma WebDav_CreateFile_roundtrip_witness :
  statMeta
    (WebDav.Stat
       (@WebDav.CreateFile listOrder ∅ "p" (list_byte_of_string "data") None
          (Some {[ "owner" := "bob" ]})).1 "p")
    = {[ "owner" := "bob" ]} ∧
  WebDav.GetFile
    (@WebDav.CreateFile listOrder ∅ "p" (list_byte_of_string "data") None
       (Some {[ "owner" := "bob" ]})).1 "p"
    = (Some (list_byte_of_string "data"), None).
Proof.
  destruct (@WebDav_CreateFile_roundtrip listOrder ∅ "p"
              (list_byte_of_string "data") None {[ "owner" := "bob" ]})
    as (_ & Hm & Hg).
  - apply (bool_decide_unpack _). vm_compute. exact I.
  - discriminate.
  - split; [exact Hm | exact Hg].
Defined.

(** ** Copying on the S3 backend *)



(** ** Copying a file that has no metadata *)

(** X22: when the source has no sidecar, or an empty one, [CopyFile] does not
    touch the sidecar of the destination: on the local backend when no
    override is passed, on the WebDav backend whatever is passed, the
    override being dropped (there for a destination other than the source,
    a copy onto itself being refused).  So [Stat] of the destination
    afterwards reports the metadata that were stored for the destination
    before the copy, not those of the source. *)
Theorem CopyFile_keeps_old_sidecar `{RangeOrder} (fs : FS)
    (src dst : string) (ttl : option Z) (meta : option (gmap string string))
    (content : list byte) :
  fs !! src = Some content →
  Local.IsExist fs (src +:+ META_PREFIX) = false →
  (src ≠ dst → src ≠ dst +:+ META_PREFIX → dst ≠ src +:+ META_PREFIX →
     (Local.CopyFile fs src dst ttl None).2 = None ∧
     (Local.CopyFile fs src dst ttl None).1 !! (dst +:+ META_PREFIX)
       = fs !! (dst +:+ META_PREFIX) ∧
     statMeta (Local.Stat (Local.CopyFile fs src dst ttl None).1 dst)
       = bytes2Meta (default [] (fs !! (dst +:+ META_PREFIX)))) ∧
  (src ≠ dst →
     (WebDav.CopyFile fs src dst ttl meta).2 = None ∧
     (WebDav.CopyFile fs src dst ttl meta).1 !! (dst +:+ META_PREFIX)
       = fs !! (dst +:+ META_PREFIX) ∧
     statMeta (WebDav.Stat (WebDav.CopyFile fs src dst ttl meta).1 dst)
       = bytes2Meta (default [] (fs !! (dst +:+ META_PREFIX)))).
Proof.
  intros Hc Hex.
  pose proof (meta_name_ne dst) as Hdm.
  assert (Hold : ∀ fs' : FS,
            fs' !! dst = Some content →
            fs' !! (dst +:+ META_PREFIX) = fs !! (dst +:+ META_PREFIX) →
            statMeta (Local.Stat fs' dst)
            = bytes2Meta (default [] (fs !! (dst +:+ META_PREFIX)))
            ∧ statMeta (WebDav.Stat fs' dst)
            = bytes2Meta (default [] (fs !! (dst +:+ META_PREFIX)))).
  { intros fs' Hd Hm. unfold Local.Stat, WebDav.Stat, client_Stat, os_Stat.
    rewrite Hd, Local_GetFile_lookup.
    change (WebDav.IsExist fs' ?p) with (Local.IsExist fs' p).
    unfold client_Read, os_ReadFile. rewrite Hm.
    destruct (fs !! (dst +:+ META_PREFIX)) as [mb|] eqn:Hmb.
    - destruct (decide (mb = [])) as [->|Hne].
      + rewrite (Local_IsExist_false fs') by (right; congruence). done.
      + assert (Local.IsExist fs' (dst +:+ META_PREFIX) = true) as ->.
        { apply Local_IsExist_lookup. exists mb. split; congruence. }
        done.
    - rewrite (Local_IsExist_false fs') by (left; congruence). done. }
  split.
  - intros Hne Hsm Hds. unfold Local.CopyFile, os_Open, os_Create.
    rewrite Hc. rewrite (io_Copy_fresh fs src dst content) by done.
    assert (Local.copyMeta (<[dst := content]> fs) src dst None
            = (<[dst := content]> fs, None)) as ->.
    { unfold Local.copyMeta, os_Stat.
      rewrite lookup_insert_ne by done.
      destruct (fs !! (src +:+ META_PREFIX)) as [mb|] eqn:Hmb; [|done].
      cbn [fi_size]. rewrite bool_decide_eq_false_2; [done|].
      intros Hpos. rewrite (proj2 (Local_IsExist_lookup fs _)) in Hex; [done|].
      exists mb. split; [done|]. intros ->. unfold len in Hpos.
      simpl in Hpos. lia. }
    cbn [fst snd]. split; [done|].
    assert (Hm : <[dst := content]> fs !! (dst +:+ META_PREFIX)
                 = fs !! (dst +:+ META_PREFIX))
      by (by rewrite lookup_insert_ne).
    split; [done|].
    apply Hold; [apply lookup_insert_eq | done].
  - intros Hne. unfold WebDav.CopyFile.
    change (WebDav.IsExist fs ?p) with (Local.IsExist fs p). rewrite Hex.
    unfold client_Copy. rewrite Hc, decide_False by done.
    cbn [fst snd]. split; [done|].
    assert (Hm : <[dst := content]> fs !! (dst +:+ META_PREFIX)
                 = fs !! (dst +:+ META_PREFIX))
      by (by rewrite lookup_insert_ne).
    split; [done|].
    apply Hold; [apply lookup_insert_eq | done].
Qed.

Lemma CopyFile_keeps_old_sidecar_witness :
  statMeta
    (Local.Stat
       (@Local.CopyFile listOrder
          (<[ "plain" := [x61] ]> bobFiles) "plain" "src" None None).1 "src")
    = bobMeta ∧
  statMeta
    (WebDav.Stat
       (@WebDav.CopyFile listOrder
          (<[ "plain" := [x61] ]> bobFiles) "plain" "src" None
          (Some {[ "owner" := "alice" ]})).1 "src")
    = bobMeta.
Proof.
  destruct (@CopyFile_keeps_old_sidecar listOrder
              (<[ "plain" := [x61] ]> bobFiles) "plain" "src" None
              (Some {[ "owner" := "alice" ]}) [x61])
    as [Hl Hw]; [vm_compute; reflexivity | vm_compute; reflexivity |].
  destruct Hl as (_ & _ & Hl); [discriminate | discriminate | discriminate |].
  destruct Hw as (_ & _ & Hw); [discriminate|].
  split.
  - rewrite Hl. vm_compute. reflexivity.
  - rewrite Hw. vm_compute. reflexivity.
Defined.
